(** * The reason-then-act agent loop of master.ipynb

    A shallow embedding of the notebook's [Agent] class (cell "Step 5") and
    of the module-level constants it reads (cell "Step 6"), together with
    the Python string operations and the regular-expression search that
    the output parser [_get_tool_and_input] relies on.

    Python [str] values are sequences of Unicode code points, so a string
    is a [list N]; [lit] turns an ASCII literal into such a sequence. *)

From stdpp Require Import base list strings gmap.
From Stdlib Require Import Ascii NArith ZArith Lia.

Abbreviation char := N (only parsing).
Abbreviation str := (list N) (only parsing).

Definition lit (s : string) : str :=
  Ascii.N_of_ascii <$> String.list_ascii_of_string s.

(** ** Exceptions and results *)

Inductive exn :=
| ValueError (msg : str)
| KeyError (key : str)
| IndexError
| Foreign (tag : str).   (* raised inside a collaborator: str.format, the LLM, a tool *)

Inductive Res (A : Type) :=
| Ok (a : A)
| Raise (e : exn).
Arguments Ok {A} a.
Arguments Raise {A} e.

(** ** Python string operations *)

Module Py.

(** [Py_UNICODE_ISSPACE]: the characters removed by [str.strip()] and
    matched by [\s] in a str pattern. *)
Definition isspace (c : char) : bool :=
  ((9 <=? c) && (c <=? 13) || (28 <=? c) && (c <=? 32)
   || (c =? 133) || (c =? 160) || (c =? 5760)
   || (8192 <=? c) && (c <=? 8202)
   || (c =? 8232) || (c =? 8233) || (c =? 8239) || (c =? 8287)
   || (c =? 12288))%N.

Fixpoint startswith (s p : str) {struct p} : bool :=
  match p, s with
  | [], _ => true
  | a :: p', b :: s' => (a =? b)%N && startswith s' p'
  | _ :: _, [] => false
  end.

(** [sub in s] *)
Fixpoint contains (sub s : str) : bool :=
  startswith s sub ||
  match s with
  | [] => false
  | _ :: s' => contains sub s'
  end.

(** The scan of [s.split(sep)] for a non-empty [sep]: [skip] counts the
    characters of a separator just found that are still to be passed
    over, [acc] holds the current piece, reversed. *)
Fixpoint split_go (sep : str) (skip : nat) (acc : str) (s : str) : list str :=
  match s with
  | [] => [reverse acc]
  | c :: s' =>
      match skip with
      | S k => split_go sep k acc s'
      | O =>
          if startswith s sep
          then reverse acc :: split_go sep (length sep - 1) [] s'
          else split_go sep 0 (c :: acc) s'
      end
  end.

(** [s.split(sep)]; [None] stands for "ValueError: empty separator". *)
Definition split (s sep : str) : option (list str) :=
  match sep with
  | [] => None
  | _ :: _ => Some (split_go sep 0 [] s)
  end.

Fixpoint lstrip_by (p : char → bool) (s : str) : str :=
  match s with
  | c :: s' => if p c then lstrip_by p s' else s
  | [] => []
  end.

Definition rstrip_by (p : char → bool) (s : str) : str :=
  reverse (lstrip_by p (reverse s)).

Definition strip_by (p : char → bool) (s : str) : str :=
  rstrip_by p (lstrip_by p s).

(** [s.strip()] *)
Definition strip (s : str) : str := strip_by isspace s.

(** [s.strip(chars)] *)
Definition strip_chars (s chars : str) : str :=
  strip_by (λ c, bool_decide (c ∈ chars)) s.

(** [sep.join(l)] *)
Fixpoint join (sep : str) (l : list str) : str :=
  match l with
  | [] => []
  | [x] => x
  | x :: l' => x ++ sep ++ join sep l'
  end.

End Py.

(** ** The fragment of [re] used by the parser

    Backtracking matching in the priority order of Python's engine:
    a greedy item tries the longest repetition first, a lazy one the
    shortest.  [Capture q] is a capturing group around a repetition of
    the dot, greedy or lazy, under [re.DOTALL], where the dot matches
    every character. *)

Module Re.

Inductive quant := Greedy | Lazy.

Inductive node :=
| Chr (c : char)            (* a literal character *)
| Opt (p : char → bool)     (* a character set, optional, greedy *)
| Star (p : char → bool)    (* a character set, repeated, greedy *)
| Capture (q : quant).      (* a group around the repeated dot *)

Definition regex := list node.

Fixpoint star_greedy {A} (p : char → bool) (k : str → option A) (s : str)
  : option A :=
  match s with
  | c :: s' =>
      if p c then
        match star_greedy p k s' with
        | Some r => Some r
        | None => k s
        end
      else k s
  | [] => k s
  end.

Fixpoint any_lazy (k : str → option (list str)) (acc : str) (s : str)
  : option (list str) :=
  match k s with
  | Some gs => Some (reverse acc :: gs)
  | None =>
      match s with
      | c :: s' => any_lazy k (c :: acc) s'
      | [] => None
      end
  end.

Fixpoint any_greedy (k : str → option (list str)) (acc : str) (s : str)
  : option (list str) :=
  match s with
  | c :: s' =>
      match any_greedy k (c :: acc) s' with
      | Some r => Some r
      | None => cons (reverse acc) <$> k s
      end
  | [] => cons (reverse acc) <$> k s
  end.

(** Match [r] at the start of [s]; the result lists the captured groups
    in order. *)
Fixpoint match_here (r : regex) (s : str) : option (list str) :=
  match r with
  | [] => Some []
  | Chr c :: r' =>
      match s with
      | c' :: s' => if (c =? c')%N then match_here r' s' else None
      | [] => None
      end
  | Opt p :: r' =>
      match s with
      | c :: s' =>
          if p c then
            match match_here r' s' with
            | Some gs => Some gs
            | None => match_here r' s
            end
          else match_here r' s
      | [] => match_here r' s
      end
  | Star p :: r' => star_greedy p (match_here r') s
  | Capture Greedy :: r' => any_greedy (match_here r') [] s
  | Capture Lazy :: r' => any_lazy (match_here r') [] s
  end.

(** [re.search]: the match at the leftmost position that has one. *)
Fixpoint search (r : regex) (s : str) : option (list str) :=
  match match_here r s with
  | Some gs => Some gs
  | None =>
      match s with
      | _ :: s' => search r s'
      | [] => None
      end
  end.

(** [match.group(n)] for [n >= 1] *)
Definition group (gs : list str) (n : nat) : str :=
  default [] (gs !! (n - 1)).

End Re.

(** ** Module-level constants (cell "Step 6") *)

Definition FINAL_ANSWER_TOKEN : str := lit "Final Answer:".
Definition OBSERVATION_TOKEN : str := lit "Observation:".
Definition THOUGHT_TOKEN : str := lit "Thought:".

Definition nl : char := 10%N.
Definition lbracket : char := 91%N.
Definition rbracket : char := 93%N.
Definition dquote : char := 34%N.

(** The pattern of [_get_tool_and_input], item by item: the literal
    "Action: ", an optional opening bracket, group 1 (lazy), an optional
    closing bracket, any number of newlines, the literal "Action Input:",
    any number of whitespace characters, group 2 (greedy). *)
Definition action_regex : Re.regex :=
  (Re.Chr <$> lit "Action: ")
  ++ [Re.Opt (N.eqb lbracket); Re.Capture Re.Lazy; Re.Opt (N.eqb rbracket);
      Re.Star (N.eqb nl)]
  ++ (Re.Chr <$> lit "Action Input:")
  ++ [Re.Star Py.isspace; Re.Capture Re.Greedy].

Definition not_parsable (generated : str) : exn :=
  ValueError (lit "Output of LLM is not parsable for next tool use: `"
              ++ generated ++ lit "`").

(** ** Collaborators

    [World.t] is everything outside the agent that a run can read or
    change: the notebook's module-level variable [prompt] (cell "Step 7")
    and the state [ext] of the language model and of the tools.  A tool
    and the language model are arbitrary Python callables, so both take
    and return the world and may raise. *)

Module World.
Record t (Ext : Type) := mk { prompt : str; ext : Ext }.
Arguments mk {Ext} _ _.
Arguments prompt {Ext} _.
Arguments ext {Ext} _.
End World.

Module Tool.
Record t (Ext : Type) := mk {
  name : str;
  description : str;
  run : World.t Ext → str → Res str * World.t Ext
}.
Arguments mk {Ext} _ _ _.
Arguments name {Ext} _.
Arguments description {Ext} _.
Arguments run {Ext} _ _ _.
End Tool.

Module LLM.
(** [generate w p stop] is the text of the first generation,
    [llm.generate([p], stop=stop).generations[0][0].text]. *)
Record t (Ext : Type) := mk {
  generate : World.t Ext → str → list str → Res str * World.t Ext
}.
Arguments mk {Ext} _.
Arguments generate {Ext} _ _ _ _.
End LLM.

(** What a run did to its collaborators, in order. *)
Inductive event :=
| Generate (prompt : str) (stop : list str) (r : Res str)
| Invoke (tool : str) (tool_input : str) (r : Res str).

(** ** The agent *)

Module Agent.

Record t (Ext : Type) := mk {
  llm : LLM.t Ext;
  prompt : str;
  tools : list (Tool.t Ext);
  max_loops : Z;
  stop_pattern : list str
}.
Arguments mk {Ext} _ _ _ _ _.
Arguments llm {Ext} _.
Arguments prompt {Ext} _.
Arguments tools {Ext} _.
Arguments max_loops {Ext} _.
Arguments stop_pattern {Ext} _.

(** The value of the field [max_loops] when the constructor is not
    given one. *)
Definition default_max_loops : Z := 20.

(** The local variables of [run], the world, and the trace of calls. *)
Record State (Ext : Type) := mkState {
  previous_responses : list str;
  num_loops : Z;
  world : World.t Ext;
  trace : list event
}.
Arguments mkState {Ext} _ _ _ _.
Arguments previous_responses {Ext} _.
Arguments num_loops {Ext} _.
Arguments world {Ext} _.
Arguments trace {Ext} _.

(** How one pass through the loop body ends when it does not raise. *)
Inductive ctrl := Continue | Return (v : str).

(** [Agent._get_tool_and_input] *)
Definition _get_tool_and_input (generated : str) : Res (str * str) :=
  if Py.contains FINAL_ANSWER_TOKEN generated then
    match Py.split generated FINAL_ANSWER_TOKEN with
    | None => Raise (ValueError (lit "empty separator"))
    | Some pieces =>
        match last pieces with
        | None => Raise IndexError
        | Some piece => Ok (lit "Final Answer", Py.strip piece)
        end
    end
  else
    match Re.search action_regex generated with
    | None => Raise (not_parsable generated)
    | Some m =>
        let tool := Py.strip (Re.group m 1) in
        let tool_input := Re.group m 2 in
        Ok (tool, Py.strip_chars (Py.strip_chars tool_input (lit " ")) [dquote])
    end.

Section methods.
Context {Ext : Type}.

(** [format tpl v] is [tpl.format(previous_responses=v)]. *)
Variable format : str → str → Res str.

(** Statements of [run]: they read and change the state, and raise. *)
Definition M (A : Type) : Type := State Ext → Res A * State Ext.

Definition ret {A} (a : A) : M A := λ st, (Ok a, st).

Definition bind {A B} (m : M A) (k : A → M B) : M B :=
  λ st,
    match m st with
    | (Ok a, st') => k a st'
    | (Raise e, st') => (Raise e, st')
    end.

Definition lift {A} (r : Res A) : M A := λ st, (r, st).

Local Notation "x <- m ;; k" := (bind m (λ x, k))
  (at level 100, m at next level, right associativity).

Definition incr_num_loops : M unit :=
  λ st, (Ok (), mkState (previous_responses st) (num_loops st + 1)
                        (world st) (trace st)).

Definition get_previous_responses : M (list str) :=
  λ st, (Ok (previous_responses st), st).

(** Reading the module-level variable [prompt]. *)
Definition get_prompt : M str :=
  λ st, (Ok (World.prompt (world st)), st).

Definition append (output : str) : M unit :=
  λ st, (Ok (), mkState (previous_responses st ++ [output]) (num_loops st)
                        (world st) (trace st)).

Definition generate (self : t Ext) (p : str) : M str :=
  λ st,
    let '(r, w) := LLM.generate (llm self) (world st) p (stop_pattern self) in
    (r, mkState (previous_responses st) (num_loops st) w
                (trace st ++ [Generate p (stop_pattern self) r])).

Definition invoke (tool : Tool.t Ext) (tool_input : str) : M str :=
  λ st,
    let '(r, w) := Tool.run tool (world st) tool_input in
    (r, mkState (previous_responses st) (num_loops st) w
                (trace st ++ [Invoke (Tool.name tool) tool_input r])).

(** The dict comprehension [{tool.name: tool for tool in self.tools}] of
    the property [tool_by_names], which the first line of [run] repeats:
    a later tool replaces an earlier one of the same name. *)
Definition tool_by_names (self : t Ext) : gmap str (Tool.t Ext) :=
  foldl (λ m tool, <[Tool.name tool := tool]> m) ∅ (tools self).

(** [name_to_tool_map[tool]] *)
Definition getitem (m : gmap str (Tool.t Ext)) (tool : str) : M (Tool.t Ext) :=
  match m !! tool with
  | Some t => ret t
  | None => lift (Raise (KeyError tool))
  end.

(** [Agent._get_next_action] *)
Definition _get_next_action (self : t Ext) (prompt : str) : M (str * str * str) :=
  output <- generate self prompt ;;
  parsed <- lift (_get_tool_and_input output) ;;
  let '(tool, tool_input) := parsed in
  ret (output, tool, tool_input).

(** The body of the [while] loop of [run].  The template is the
    module-level [prompt], as in the source, not [self.prompt]; the
    [print] of the record is not modelled. *)
Definition body (self : t Ext) (name_to_tool_map : gmap str (Tool.t Ext)) : M ctrl :=
  _ <- incr_num_loops ;;
  tpl <- get_prompt ;;
  prev <- get_previous_responses ;;
  curr_prompt <- lift (format tpl (Py.join [nl] prev)) ;;
  action <- _get_next_action self curr_prompt ;;
  let '(output, tool, tool_input) := action in
  if decide (tool = lit "Final Answer") then ret (Return tool_input)
  else
    t <- getitem name_to_tool_map tool ;;
    tool_result <- invoke t tool_input ;;
    let output := output ++ [nl] ++ OBSERVATION_TOKEN ++ lit " " ++ tool_result
                         ++ [nl] ++ THOUGHT_TOKEN in
    _ <- append output ;;
    ret Continue.

(** [while num_loops < self.max_loops: ...], unrolled at most [fuel]
    times; [None] when [fuel] runs out.  Falling out of the loop ends
    [run] without a [return], so the call evaluates to Python's
    [None], here [Ok None]. *)
Fixpoint loop (fuel : nat) (self : t Ext) (name_to_tool_map : gmap str (Tool.t Ext))
         (st : State Ext) : option (Res (option str) * State Ext) :=
  match fuel with
  | O => None
  | S fuel' =>
      if (num_loops st <? max_loops self)%Z then
        match body self name_to_tool_map st with
        | (Ok Continue, st') => loop fuel' self name_to_tool_map st'
        | (Ok (Return v), st') => Some (Ok (Some v), st')
        | (Raise e, st') => Some (Raise e, st')
        end
      else Some (Ok None, st)
  end.

Definition initial (w : World.t Ext) : State Ext := mkState [] 0 w [].

(** [Agent.run]; the argument [question] is not used by the body. *)
Definition run (fuel : nat) (self : t Ext) (question : str) (w : World.t Ext)
  : option (Res (option str) * State Ext) :=
  let name_to_tool_map := tool_by_names self in
  loop fuel self name_to_tool_map (initial w).

End methods.

End Agent.

(** ** Notions used to state the properties *)

(** [sub] is a substring of [s]. *)
Definition occurs (sub s : str) : Prop := ∃ pre post, s = pre ++ sub ++ post.

(** [t] is [s] without the characters satisfying [P] at its two ends. *)
Definition trimmed_of (P : char → Prop) (s t : str) : Prop :=
  ∃ l r, s = l ++ t ++ r ∧ Forall P l ∧ Forall P r
         ∧ (∀ c, head t = Some c → ¬ P c) ∧ (∀ c, last t = Some c → ¬ P c).

Definition is_space (c : char) : Prop := Py.isspace c = true.

(** The text after the last occurrence of [sep] in [s], looked for from
    the right; the reference against which [split] is checked. *)
Fixpoint after_last (sep s : str) : option str :=
  match s with
  | [] => None
  | _ :: s' =>
      match after_last sep s' with
      | Some r => Some r
      | None => if Py.startswith s sep then Some (drop (length sep) s) else None
      end
  end.

(** [sub] occurs in [s] between [pre] and [post], and nowhere further
    right. *)
Definition last_occurrence (sub s pre post : str) : Prop :=
  s = pre ++ sub ++ post ∧
  ∀ pre' post', s = pre' ++ sub ++ post' → length pre' ≤ length pre.

(** [sub] occurs in [s] between [pre] and [post], and nowhere further
    left. *)
Definition first_occurrence (sub s pre post : str) : Prop :=
  s = pre ++ sub ++ post ∧
  ∀ pre' post', s = pre' ++ sub ++ post' → length pre ≤ length pre'.

(** [s] without its first character when that character is [c]. *)
Definition skip1 (c : char) (s : str) : str :=
  match s with
  | a :: s' => if (c =? a)%N then s' else s
  | [] => []
  end.

(** The texts in which the action pattern has a match, said without the
    matcher: somewhere, "Action: ", at most one opening bracket, any text,
    at most one closing bracket, newlines, "Action Input:", whitespace,
    any text up to the end. *)
Definition action_grammar (s : str) : Prop :=
  ∃ pre ob name cb nls ws input,
    s = pre ++ lit "Action: " ++ ob ++ name ++ cb ++ nls
            ++ lit "Action Input:" ++ ws ++ input
    ∧ (ob = [] ∨ ob = [lbracket])
    ∧ (cb = [] ∨ cb = [rbracket])
    ∧ Forall (λ c, c = nl) nls
    ∧ Forall (λ c, Py.isspace c = true) ws.

(** The first action of [generated], part by part: the text [pre] before
    the first "Action: ", an opening bracket [ob] when one follows
    directly, the name as written [g1], a closing bracket [cb] when one
    stands directly before the newlines [nls] that run up to the first
    "Action Input:" after the label, the whitespace [ws] after it and the
    rest [g2] of the text.  The conditions leave one way to cut the text:
    [g1] neither starts with a bracket that [ob] could take nor ends with
    a bracket or a newline that [cb] or [nls] could take. *)
Definition first_action (generated pre ob g1 cb nls ws g2 : str) : Prop :=
  first_occurrence (lit "Action: ") generated pre
    (ob ++ g1 ++ cb ++ nls ++ lit "Action Input:" ++ ws ++ g2)
  ∧ first_occurrence (lit "Action Input:")
      ((ob ++ g1 ++ cb ++ nls) ++ lit "Action Input:" ++ ws ++ g2)
      (ob ++ g1 ++ cb ++ nls) (ws ++ g2)
  ∧ (ob = [] ∧ head g1 ≠ Some lbracket ∨ ob = [lbracket])
  ∧ (cb = [] ∧ last g1 ≠ Some rbracket ∧ last g1 ≠ Some nl ∨ cb = [rbracket])
  ∧ Forall (λ c, c = nl) nls
  ∧ Forall is_space ws
  ∧ (∀ c, head g2 = Some c → ¬ is_space c).

(** The tail of the pattern from "Action Input:" on, and from the
    optional closing bracket on. *)
Definition re_input : Re.regex :=
  (Re.Chr <$> lit "Action Input:") ++ [Re.Star Py.isspace; Re.Capture Re.Greedy].

Definition re_close : Re.regex :=
  [Re.Opt (N.eqb rbracket); Re.Star (N.eqb nl)] ++ re_input.

Definition is_generate (e : event) : bool :=
  match e with Generate _ _ _ => true | Invoke _ _ _ => false end.

(** The number of calls to the model in a trace. *)
Definition llm_calls (tr : list event) : nat :=
  length (filter (λ e, is_generate e = true) tr).

(** The value of [output] after the [+=] of the loop body. *)
Definition record (output tool_result : str) : str :=
  output ++ [nl] ++ OBSERVATION_TOKEN ++ lit " " ++ tool_result ++ [nl]
  ++ THOUGHT_TOKEN.

Section courses.
Context {Ext : Type} (format : str → str → Res str).
Implicit Types (self : Agent.t Ext) (st : Agent.State Ext)
  (m : gmap (list N) (Tool.t Ext)).

(** The state at the head of the loop after [n] passes, each entered
    with the loop condition true and left by reaching the end of the
    body; [None] when the run does not get that far. *)
Fixpoint iterate (n : nat) self m st : option (Agent.State Ext) :=
  match n with
  | O => Some st
  | S n' =>
      if (Agent.num_loops st <? Agent.max_loops self)%Z then
        match Agent.body format self m st with
        | (Ok Agent.Continue, st') => iterate n' self m st'
        | _ => None
        end
      else None
  end.

(** The courses one pass through the loop body can take, as a relation
    between the state before, the way the pass ends and the state
    after. *)
Inductive course self m st : Res Agent.ctrl → Agent.State Ext → Prop :=
| format_raises e :
    format (World.prompt (Agent.world st))
           (Py.join [nl] (Agent.previous_responses st)) = Raise e →
    course self m st (Raise e)
      (Agent.mkState (Agent.previous_responses st) (Agent.num_loops st + 1)
                     (Agent.world st) (Agent.trace st))
| generate_raises p e w :
    format (World.prompt (Agent.world st))
           (Py.join [nl] (Agent.previous_responses st)) = Ok p →
    LLM.generate (Agent.llm self) (Agent.world st) p (Agent.stop_pattern self)
    = (Raise e, w) →
    course self m st (Raise e)
      (Agent.mkState (Agent.previous_responses st) (Agent.num_loops st + 1) w
         (Agent.trace st ++ [Generate p (Agent.stop_pattern self) (Raise e)]))
| parse_raises p output e w :
    format (World.prompt (Agent.world st))
           (Py.join [nl] (Agent.previous_responses st)) = Ok p →
    LLM.generate (Agent.llm self) (Agent.world st) p (Agent.stop_pattern self)
    = (Ok output, w) →
    Agent._get_tool_and_input output = Raise e →
    course self m st (Raise e)
      (Agent.mkState (Agent.previous_responses st) (Agent.num_loops st + 1) w
         (Agent.trace st ++ [Generate p (Agent.stop_pattern self) (Ok output)]))
| answers p output tool_input w :
    format (World.prompt (Agent.world st))
           (Py.join [nl] (Agent.previous_responses st)) = Ok p →
    LLM.generate (Agent.llm self) (Agent.world st) p (Agent.stop_pattern self)
    = (Ok output, w) →
    Agent._get_tool_and_input output = Ok (lit "Final Answer", tool_input) →
    course self m st (Ok (Agent.Return tool_input))
      (Agent.mkState (Agent.previous_responses st) (Agent.num_loops st + 1) w
         (Agent.trace st ++ [Generate p (Agent.stop_pattern self) (Ok output)]))
| tool_missing p output tool tool_input w :
    format (World.prompt (Agent.world st))
           (Py.join [nl] (Agent.previous_responses st)) = Ok p →
    LLM.generate (Agent.llm self) (Agent.world st) p (Agent.stop_pattern self)
    = (Ok output, w) →
    Agent._get_tool_and_input output = Ok (tool, tool_input) →
    tool ≠ lit "Final Answer" →
    m !! tool = None →
    course self m st (Raise (KeyError tool))
      (Agent.mkState (Agent.previous_responses st) (Agent.num_loops st + 1) w
         (Agent.trace st ++ [Generate p (Agent.stop_pattern self) (Ok output)]))
| tool_raises p output tool tool_input w t e w' :
    format (World.prompt (Agent.world st))
           (Py.join [nl] (Agent.previous_responses st)) = Ok p →
    LLM.generate (Agent.llm self) (Agent.world st) p (Agent.stop_pattern self)
    = (Ok output, w) →
    Agent._get_tool_and_input output = Ok (tool, tool_input) →
    tool ≠ lit "Final Answer" →
    m !! tool = Some t →
    Tool.run t w tool_input = (Raise e, w') →
    course self m st (Raise e)
      (Agent.mkState (Agent.previous_responses st) (Agent.num_loops st + 1) w'
         (Agent.trace st ++ [Generate p (Agent.stop_pattern self) (Ok output)]
                         ++ [Invoke (Tool.name t) tool_input (Raise e)]))
| observes p output tool tool_input w t tool_result w' :
    format (World.prompt (Agent.world st))
           (Py.join [nl] (Agent.previous_responses st)) = Ok p →
    LLM.generate (Agent.llm self) (Agent.world st) p (Agent.stop_pattern self)
    = (Ok output, w) →
    Agent._get_tool_and_input output = Ok (tool, tool_input) →
    tool ≠ lit "Final Answer" →
    m !! tool = Some t →
    Tool.run t w tool_input = (Ok tool_result, w') →
    course self m st (Ok Agent.Continue)
      (Agent.mkState (Agent.previous_responses st ++ [record output tool_result])
         (Agent.num_loops st + 1) w'
         (Agent.trace st ++ [Generate p (Agent.stop_pattern self) (Ok output)]
                         ++ [Invoke (Tool.name t) tool_input (Ok tool_result)])).
End courses.

(** ** Stand-ins for the collaborators, used in the examples *)

Module Demo.
(** A stand-in for [tpl.format(previous_responses=v)] on the templates of
    the examples: text without braces, the doubled braces, and the field
    "{previous_responses}" are treated as Python treats them; any other
    use of a brace is outside this stand-in and reported as [Foreign]. *)
Fixpoint format_go (tpl : str) (skip : nat) (v : str) : option str :=
  match tpl with
  | [] => Some []
  | c :: tpl' =>
      match skip with
      | S k => format_go tpl' k v
      | O =>
          if Py.startswith tpl (lit "{previous_responses}")
          then app v <$> format_go tpl' 19 v
          else if Py.startswith tpl (lit "{{") then cons c <$> format_go tpl' 1 v
          else if Py.startswith tpl (lit "}}") then cons c <$> format_go tpl' 1 v
          else if ((c =? 123) || (c =? 125))%N then None
          else cons c <$> format_go tpl' 0 v
      end
  end.

Definition format (tpl v : str) : Res str :=
  match format_go tpl 0 v with
  | Some s => Ok s
  | None => Raise (Foreign (lit "str.format"))
  end.

Definition template : str :=
  lit "Question: Who are the director nominees?" ++ [nl]
  ++ lit "Thought: {previous_responses}" ++ [nl].

Definition proxy_statement : Tool.t nat :=
  Tool.mk (lit "Proxy Statement") (lit "Answers questions about the board.")
          (λ w _, (Ok (lit "Ann Lee and Bo Chen"), w)).

Definition tool_call : str :=
  lit "I need the nominees." ++ [nl] ++ lit "Action: Proxy Statement" ++ [nl]
  ++ lit "Action Input: director nominees".

Definition final_answer : str :=
  lit "I now know the final answer" ++ [nl]
  ++ lit "Final Answer: Ann Lee and Bo Chen".

Definition sentinel_call : str :=
  lit "Action: Final Answer" ++ [nl] ++ lit "Action Input: 42".

(** A model that always gives the same text. *)
Definition says (output : str) : LLM.t nat :=
  LLM.mk (λ w _ _, (Ok output, w)).

(** A model that asks for the tool on its first call and answers on the
    next ones; the world counts its calls. *)
Definition scripted : LLM.t nat :=
  LLM.mk (λ w _ _,
    (Ok (if decide (World.ext w = 0) then tool_call else final_answer),
     World.mk (World.prompt w) (S (World.ext w)))).

Definition stop : list str :=
  [[nl] ++ OBSERVATION_TOKEN; [nl; 9%N] ++ OBSERVATION_TOKEN].

Definition agent (llm : LLM.t nat) (tools : list (Tool.t nat)) (budget : Z)
  : Agent.t nat :=
  Agent.mk llm template tools budget stop.

Definition world : World.t nat := World.mk template 0.
End Demo.

(** ** More of the notebook: the prompt (cells "Step 6" and "Step 7") *)

(** [str.format] with keyword arguments that are strings, on a fragment of
    the format-string syntax: text, the doubled braces, and replacement
    fields that are a plain name ([a-zA-Z_] then [a-zA-Z0-9_]), without
    conversion, format specification, attribute or index.  The result is
    [None] on a template outside this fragment, and Python's result on a
    template inside it: the text, ValueError for a single brace,
    IndexError for the empty field (there are no positional arguments),
    KeyError for a name that is not a keyword.  Python reports the first
    error from the left, as does [go]. *)
Module Fmt.

Definition lbrace : char := 123%N.
Definition rbrace : char := 125%N.

Definition is_letter (c : char) : bool :=
  ((65 <=? c) && (c <=? 90) || (97 <=? c) && (c <=? 122) || (c =? 95))%N.

Definition is_digit (c : char) : bool := ((48 <=? c) && (c <=? 57))%N.

(** Where the scan is: in text, after an opening brace, in the name of a
    field, after a closing brace in text. *)
Inductive mode :=
| Text
| Open
| Field (name : str)
| Close.

(** Put [s] in front of the text still to come, if that comes. *)
Definition emit (s : str) (r : option (Res str)) : option (Res str) :=
  match r with
  | Some (Ok out) => Some (Ok (s ++ out))
  | other => other
  end.

Fixpoint go (kwargs : gmap str str) (m : mode) (tpl : str) : option (Res str) :=
  match tpl with
  | [] =>
      match m with
      | Text => Some (Ok [])
      | Open =>
          Some (Raise (ValueError (lit "Single '{' encountered in format string")))
      | Field _ =>
          Some (Raise (ValueError (lit "expected '}' before end of string")))
      | Close =>
          Some (Raise (ValueError (lit "Single '}' encountered in format string")))
      end
  | c :: tpl' =>
      match m with
      | Text =>
          if (c =? lbrace)%N then go kwargs Open tpl'
          else if (c =? rbrace)%N then go kwargs Close tpl'
          else emit [c] (go kwargs Text tpl')
      | Open =>
          if (c =? lbrace)%N then emit [lbrace] (go kwargs Text tpl')
          else if (c =? rbrace)%N then Some (Raise IndexError)
          else if is_letter c then go kwargs (Field [c]) tpl'
          else None
      | Field name =>
          if (c =? rbrace)%N then
            match kwargs !! name with
            | Some v => emit v (go kwargs Text tpl')
            | None => Some (Raise (KeyError name))
            end
          else if is_letter c || is_digit c then go kwargs (Field (name ++ [c])) tpl'
          else None
      | Close =>
          if (c =? rbrace)%N then emit [rbrace] (go kwargs Text tpl')
          else
            Some (Raise (ValueError (lit "Single '}' encountered in format string")))
      end
  end.

Definition format (tpl : str) (kwargs : gmap str str) : option (Res str) :=
  go kwargs Text tpl.

(** [tpl.format(previous_responses=v)], with a template outside the
    fragment reported as [Foreign]. *)
Definition format_previous_responses (tpl v : str) : Res str :=
  match format tpl {[lit "previous_responses" := v]} with
  | Some r => r
  | None => Raise (Foreign (lit "str.format"))
  end.

End Fmt.

(** The text of [PROMPT_TEMPLATE] with its four fields replaced by the
    given strings: [preamble] is the part up to the question. *)
Definition preamble (tool_description tool_names : str) : str :=
  lit "Answer the question as best as you can using the following tools: " ++ [nl]
  ++ [nl]
  ++ tool_description ++ [nl]
  ++ [nl]
  ++ lit "Use the following format:" ++ [nl]
  ++ [nl]
  ++ lit "Question: the input question you must answer" ++ [nl]
  ++ lit "Thought: comment on what you want to do next" ++ [nl]
  ++ lit "Action: the action to take, exactly one element of [" ++ tool_names
  ++ lit "]" ++ [nl]
  ++ lit "Action Input: the input to the action" ++ [nl]
  ++ lit "Observation: the result of the action, including extracting any relevant text that answers the question" ++ [nl]
  ++ lit "... (this Thought/Action/Action Input/Observation repeats N times, use it until you are sure of the answer)" ++ [nl]
  ++ lit "Thought: I now know the final answer" ++ [nl]
  ++ lit "Final Answer: your final answer to the original input question" ++ [nl]
  ++ [nl]
  ++ lit "Begin!" ++ [nl]
  ++ [nl]
  ++ lit "Question: ".

Definition fill (tool_description tool_names question previous_responses : str)
  : str :=
  preamble tool_description tool_names
  ++ question ++ [nl]
  ++ lit "Thought: " ++ previous_responses ++ [nl].

Definition PROMPT_TEMPLATE : str :=
  fill (lit "{tool_description}") (lit "{tool_names}") (lit "{question}")
       (lit "{previous_responses}").

(** The two joins of cell "Step 7". *)
Definition tool_description {Ext} (tools : list (Tool.t Ext)) : str :=
  Py.join [nl] ((λ tool, Tool.name tool ++ lit ": " ++ Tool.description tool) <$> tools).

Definition tool_names {Ext} (tools : list (Tool.t Ext)) : str :=
  Py.join (lit ", ") (Tool.name <$> tools).

(** [prompt = PROMPT_TEMPLATE.format(...)] of cell "Step 7". *)
Definition build_prompt {Ext} (tools : list (Tool.t Ext)) (question : str)
  : option (Res str) :=
  Fmt.format PROMPT_TEMPLATE
    (<[lit "tool_description" := tool_description tools]>
       (<[lit "tool_names" := tool_names tools]>
          (<[lit "question" := question]>
             {[lit "previous_responses" := lit "{previous_responses}"]}))).

(** A text without braces. *)
Definition brace_free (s : str) : Prop :=
  Forall (λ c, c ≠ Fmt.lbrace ∧ c ≠ Fmt.rbrace) s.

(** ** More of the loop: completed passes *)

(** A pass that reached the end of the loop body: the prompt sent, the
    output of the model, the tool called, its input and its result. *)
Record pass := mkPass {
  pass_prompt : str;
  pass_stop : list str;
  pass_output : str;
  pass_tool : str;
  pass_input : str;
  pass_result : str
}.

Definition pass_events (x : pass) : list event :=
  [Generate (pass_prompt x) (pass_stop x) (Ok (pass_output x));
   Invoke (pass_tool x) (pass_input x) (Ok (pass_result x))].

Definition pass_record (x : pass) : str :=
  pass_output x ++ [nl] ++ OBSERVATION_TOKEN ++ lit " " ++ pass_result x ++ [nl]
  ++ THOUGHT_TOKEN.

(** What makes a completed pass of an agent: the output parses to the
    tool and the input of the call, the tool is not the "Final Answer"
    name and is registered, the stop markers are the agent's. *)
Definition asked_for {Ext} (self : Agent.t Ext) (x : pass) : Prop :=
  Agent._get_tool_and_input (pass_output x) = Ok (pass_tool x, pass_input x)
  ∧ pass_tool x ≠ lit "Final Answer"
  ∧ is_Some (Agent.tool_by_names self !! pass_tool x)
  ∧ pass_stop x = Agent.stop_pattern self.

(** Tools whose names and descriptions have no braces. *)
Definition plain_tools {Ext} (tools : list (Tool.t Ext)) : Prop :=
  Forall (λ tool, brace_free (Tool.name tool) ∧ brace_free (Tool.description tool))
         tools.

(** [format] is Python's [tpl.format(previous_responses=v)] on the
    fragment of [Fmt]. *)
Definition python_format (format : str → str → Res str) : Prop :=
  ∀ tpl v r,
    Fmt.format tpl {[lit "previous_responses" := v]} = Some r → format tpl v = r.

(** ** The session of the notebook, with stand-ins for the model and the tool *)

Module Notebook.
Definition tools : list (Tool.t nat) := [Demo.proxy_statement].

Definition question : str := lit "Who are the director nominees?".

(** The value of the module-level [prompt] after cell "Step 7". *)
Definition prompt (question : str) : str :=
  fill (tool_description tools) (tool_names tools) question
       (lit "{previous_responses}").

(** [Agent(llm=llm, tools=tools, prompt=prompt, stop_pattern=[...])]:
    [max_loops] takes its default. *)
Definition agent (llm : LLM.t nat) (question : str) : Agent.t nat :=
  Agent.mk llm (prompt question) tools Agent.default_max_loops Demo.stop.

Definition world (question : str) : World.t nat := World.mk (prompt question) 0.
End Notebook.

(** * Properties *)

(** ** Strings *)

Lemma startswith_app p r : Py.startswith (p ++ r) p = true.
Proof.
  induction p as [|a p IH]; simpl; [done|].
  by rewrite N.eqb_refl.
Qed.

Lemma startswith_inv s p : Py.startswith s p = true → s = p ++ drop (length p) s.
Proof.
  revert s. induction p as [|a p IH]; intros [|b s] H; simpl in *; try done.
  apply andb_true_iff in H as [Hab H]. apply N.eqb_eq in Hab as ->.
  f_equal. by apply IH.
Qed.

Lemma startswith_iff s p : Py.startswith s p = true ↔ ∃ r, s = p ++ r.
Proof.
  split.
  - intros H. eexists. by apply startswith_inv.
  - intros [r ->]. apply startswith_app.
Qed.

Lemma startswith_head s c t :
  Py.startswith s (c :: t) = true → head s = Some c.
Proof. intros H%startswith_inv. by rewrite H. Qed.

Lemma contains_iff sub s :
  Py.contains sub s = true ↔ ∃ pre post, s = pre ++ sub ++ post.
Proof.
  induction s as [|c s IH]; simpl.
  - rewrite orb_false_r, startswith_iff. split.
    + intros [r Hr]. by exists [], r.
    + intros (pre & post & H). symmetry in H.
      apply app_eq_nil in H as [-> H]. eauto.
  - rewrite orb_true_iff, startswith_iff, IH. split.
    + intros [[r Hr] | (pre & post & ->)].
      * by exists [], r.
      * by exists (c :: pre), post.
    + intros ([|c' pre] & post & H); simpl in H.
      * left. eauto.
      * right. injection H as -> ->. eauto.
Qed.

Lemma contains_false sub s :
  Py.contains sub s = false ↔ ¬ ∃ pre post, s = pre ++ sub ++ post.
Proof. rewrite <- contains_iff. by destruct (Py.contains sub s). Qed.

Lemma after_last_None sep s :
  after_last sep s = None → Py.contains sep s = false ∨ sep = [].
Proof.
  induction s as [|c s IH]; simpl.
  - destruct sep; auto.
  - destruct (after_last sep s); [done|].
    destruct (Py.startswith (c :: s) sep) eqn:E; [done|].
    intros _. destruct IH as [IH | ->]; auto.
Qed.

Lemma after_last_Some sep s r :
  sep ≠ [] → after_last sep s = Some r → ∃ pre, last_occurrence sep s pre r.
Proof.
  intros Hsep. revert r. induction s as [|c s IH]; intros r; simpl; [done|].
  destruct (after_last sep s) as [r'|] eqn:E.
  - intros [= <-]. destruct (IH _ eq_refl) as (pre & -> & Hmax).
    exists (c :: pre). split; [done|].
    intros [|c' pre'] post' H; simpl in *; [lia|].
    injection H as _ H. apply Hmax in H. lia.
  - destruct (Py.startswith (c :: s) sep) eqn:Hp; [|done].
    intros [= <-]. exists []. split.
    + by apply startswith_inv.
    + intros [|c' pre'] post' H; simpl in *; [lia|].
      injection H as _ H. apply after_last_None in E as [E| ->]; [|done].
      apply contains_false in E. destruct E. eauto.
Qed.

Lemma split_go_nonempty sep n acc s : Py.split_go sep n acc s ≠ [].
Proof.
  revert n acc. induction s as [|c s IH]; intros n acc; simpl; [done|].
  destruct n; [|apply IH]. destruct (Py.startswith _ _); [done|apply IH].
Qed.

Lemma last_cons_nonempty {A} (x : A) l : l ≠ [] → last (x :: l) = last l.
Proof. by destruct l. Qed.

(** The scan of [split] ends on the text after the last separator when the
    first character of the separator does not occur again in it. *)
Lemma split_go_last c0 t s : 
  c0 ∉ t →
  ∀ n acc u v r,
    c0 :: t = u ++ v → length v = n → (n = 0 ∨ u ≠ []) → s = v ++ r →
    last (Py.split_go (c0 :: t) n acc s)
    = Some (default (reverse acc ++ drop n s) (after_last (c0 :: t) s)).
Proof.
  intros Hc0. induction s as [|c s IH]; intros n acc u v r Hsep Hlen Hn Hs.
  - simpl. by rewrite drop_nil, app_nil_r.
  - destruct n as [|k].
    + cbn [Py.split_go after_last].
      destruct (Py.startswith (c :: s) (c0 :: t)) eqn:Hp.
      * rewrite last_cons_nonempty by apply split_go_nonempty.
        pose proof (startswith_inv _ _ Hp) as Hcs. simpl in Hcs.
        injection Hcs as -> Hcs.
        rewrite (IH (length (c0 :: t) - 1) [] [c0] t (drop (length t) s)); 
          [|done|simpl; lia|by right|done].
        simpl. rewrite Nat.sub_0_r.
        by destruct (after_last (c0 :: t) s).
      * rewrite (IH 0 (c :: acc) (c0 :: t) [] s); [|by rewrite app_nil_r|done|by left|done].
        destruct (after_last (c0 :: t) s); simpl; [done|].
        by rewrite reverse_cons, <- app_assoc.
    + cbn [Py.split_go after_last].
      destruct v as [|c' v]; [done|]. simpl in Hlen, Hs.
      injection Hs as <- Hs. injection Hlen as Hlen.
      rewrite (IH k acc (u ++ [c]) v r); 
        [|by rewrite <- app_assoc|done|right; by destruct u|done].
      assert (c ≠ c0) as Hne.
      { intros ->. destruct Hn as [|Hu]; [done|].
        destruct u as [|c1 u]; [done|]. simpl in Hsep. injection Hsep as -> Hsep.
        apply Hc0. rewrite Hsep. set_solver. }
      assert (Py.startswith (c :: s) (c0 :: t) = false) as ->.
      { simpl. destruct (N.eqb_spec c0 c); [congruence|done]. }
      by destruct (after_last (c0 :: t) s).
Qed.

Lemma lstrip_by_split p s :
  ∃ l, s = l ++ Py.lstrip_by p s ∧ Forall (λ c, p c = true) l.
Proof.
  induction s as [|c s (l & IH & Hl)]; simpl.
  - by exists [].
  - destruct (p c) eqn:E.
    + exists (c :: l). split; [simpl; by f_equal | by constructor].
    + by exists [].
Qed.

Lemma lstrip_by_head p s c :
  head (Py.lstrip_by p s) = Some c → p c = false.
Proof.
  induction s as [|a s IH]; simpl; [done|].
  destruct (p a) eqn:E; [done|]. by intros [= <-].
Qed.

Lemma lstrip_by_app p l s :
  Forall (λ c, p c = true) l → (∀ c, head s = Some c → p c = false) →
  Py.lstrip_by p (l ++ s) = s.
Proof.
  intros Hl Hs. induction Hl as [|c l Hc _ IH]; simpl.
  - destruct s as [|c s]; [done|]. simpl. by rewrite (Hs c).
  - by rewrite Hc.
Qed.

Lemma strip_by_spec (p : char → bool) (P : char → Prop) s :
  (∀ c, p c = true ↔ P c) → trimmed_of P s (Py.strip_by p s).
Proof.
  intros HpP.
  assert (∀ c, p c = false → ¬ P c) as Hneg.
  { intros c Hc HP%HpP. congruence. }
  unfold Py.strip_by, Py.rstrip_by.
  destruct (lstrip_by_split p s) as (l & Hs & Hl).
  set (s1 := Py.lstrip_by p s) in *.
  destruct (lstrip_by_split p (reverse s1)) as (r0 & Hr & Hr0).
  set (m := Py.lstrip_by p (reverse s1)) in *.
  assert (s1 = reverse m ++ reverse r0) as Hs1.
  { by rewrite <- reverse_app, <- Hr, reverse_involutive. }
  exists l, (reverse r0). split_and!.
  - by rewrite <- Hs1.
  - eapply Forall_impl; [done|]. intros c. apply HpP.
  - apply Forall_reverse. eapply Forall_impl; [done|]. intros c. apply HpP.
  - intros c Hc. apply Hneg, (lstrip_by_head p s). fold s1. rewrite Hs1.
    destruct (reverse m); [done|]. done.
  - intros c Hc. rewrite last_reverse in Hc.
    by apply Hneg, (lstrip_by_head p (reverse s1)).
Qed.

Lemma strip_spec s : trimmed_of is_space s (Py.strip s).
Proof. by apply strip_by_spec. Qed.

Lemma strip_chars_spec s c :
  trimmed_of (λ a, a = c) s (Py.strip_chars s [c]).
Proof.
  apply strip_by_spec. intros a.
  by rewrite bool_decide_eq_true, list_elem_of_singleton.
Qed.

(** ** The pattern *)

Lemma any_greedy_nil acc s :
  Re.any_greedy (Re.match_here []) acc s = Some [reverse acc ++ s].
Proof.
  revert acc. induction s as [|c s IH]; intros acc; simpl.
  - by rewrite app_nil_r.
  - rewrite IH. by rewrite reverse_cons, <- app_assoc.
Qed.

Lemma star_greedy_total {A} p (k : str → option A) s :
  (∀ x, is_Some (k x)) → Re.star_greedy p k s = k (Py.lstrip_by p s).
Proof.
  intros Hk. induction s as [|c s IH]; simpl; [done|].
  destruct (p c); [|done]. rewrite IH. by destruct (Hk (Py.lstrip_by p s)) as [x ->].
Qed.

Lemma star_greedy_blocked {A} p (k : str → option A) s :
  (∀ c x, p c = true → k (c :: x) = None) →
  Re.star_greedy p k s = k (Py.lstrip_by p s).
Proof.
  intros Hk. induction s as [|c s IH]; simpl; [done|].
  destruct (p c) eqn:E; [|done]. rewrite IH.
  destruct (k (Py.lstrip_by p s)); [done|]. by apply Hk.
Qed.

Lemma match_here_chrs w r s :
  Re.match_here ((Re.Chr <$> w) ++ r) s
  = if Py.startswith s w then Re.match_here r (drop (length w) s) else None.
Proof.
  revert s. induction w as [|a w IH]; intros s; [done|].
  destruct s as [|b s]; [done|]. cbn. destruct (a =? b)%N; [apply IH|done].
Qed.

Lemma match_re_input s :
  Re.match_here re_input s
  = if Py.startswith s (lit "Action Input:")
    then Some [Py.lstrip_by Py.isspace (drop 13 s)] else None.
Proof.
  unfold re_input. rewrite match_here_chrs.
  destruct (Py.startswith _ _); [|done].
  cbn [Re.match_here]. rewrite star_greedy_total.
  - by rewrite any_greedy_nil.
  - intros x. rewrite any_greedy_nil. eauto.
Qed.

Lemma match_re_input_head s c :
  head s = Some c → c ≠ 65%N → Re.match_here re_input s = None.
Proof.
  intros Hs Hc. rewrite match_re_input.
  destruct (Py.startswith _ _) eqn:E; [|done].
  change (lit "Action Input:") with (65%N :: lit "ction Input:") in E.
  apply startswith_head in E. congruence.
Qed.

Lemma match_re_close s :
  Re.match_here re_close s
  = Re.match_here re_input (Py.lstrip_by (N.eqb nl) (skip1 rbracket s)).
Proof.
  assert (∀ x, Re.match_here (Re.Star (N.eqb nl) :: re_input) x
               = Re.match_here re_input (Py.lstrip_by (N.eqb nl) x)) as Hstar.
  { intros x. cbn [Re.match_here]. apply star_greedy_blocked.
    intros c y Hc%N.eqb_eq. subst c.
    by apply (match_re_input_head _ nl). }
  unfold re_close. cbn [app Re.match_here].
  change (Re.star_greedy (N.eqb nl) (Re.match_here re_input))
    with (Re.match_here (Re.Star (N.eqb nl) :: re_input)).
  destruct s as [|c s]; cbn [skip1]; [apply Hstar|].
  rewrite !Hstar. destruct (N.eqb_spec rbracket c) as [<-|Hne]; [|done].
  destruct (Re.match_here re_input (Py.lstrip_by (N.eqb nl) s)); [done|].
  by apply (match_re_input_head _ rbracket).
Qed.

Lemma match_re_close_head s c :
  head s = Some c → c ≠ 65%N → c ≠ rbracket → c ≠ nl →
  Re.match_here re_close s = None.
Proof.
  intros Hs HA Hr Hn. rewrite match_re_close.
  destruct s as [|a s]; [done|]. injection Hs as ->. cbn [skip1].
  destruct (N.eqb_spec rbracket c) as [|_]; [done|].
  cbn [Py.lstrip_by]. destruct (N.eqb_spec nl c) as [|_]; [done|].
  by apply (match_re_input_head _ c).
Qed.

Lemma any_lazy_inv k acc s gs :
  Re.any_lazy k acc s = Some gs →
  ∃ g x gs', s = g ++ x ∧ k x = Some gs' ∧ gs = (reverse acc ++ g) :: gs'
    ∧ ∀ g' x', s = g' ++ x' → length g' < length g → k x' = None.
Proof.
  revert acc. induction s as [|c s IH]; intros acc; simpl.
  - destruct (k []) as [gs'|] eqn:E; [|done]. intros [= <-].
    exists [], [], gs'. split_and!; try done;
      [by rewrite app_nil_r | intros g' x' _ Hl; simpl in Hl; lia].
  - destruct (k (c :: s)) as [gs'|] eqn:E.
    + intros [= <-]. exists [], (c :: s), gs'. split_and!; try done;
        [by rewrite app_nil_r | intros g' x' _ Hl; simpl in Hl; lia].
    + intros (g & x & gs' & -> & Hx & -> & Hmin)%IH.
      exists (c :: g), x, gs'. split_and!; try done.
      * by rewrite reverse_cons, <- app_assoc.
      * intros [|c' g'] x' Hs Hlen; simpl in *; [by subst x'|].
        injection Hs as _ Hs. apply (Hmin g'); [done|lia].
Qed.

Lemma any_lazy_complete k acc g x :
  is_Some (k x) → is_Some (Re.any_lazy k acc (g ++ x)).
Proof.
  intros [gs Hx]. revert acc. induction g as [|c g IH]; intros acc; simpl.
  - destruct x; simpl; rewrite Hx; eauto.
  - destruct (k (c :: g ++ x)); eauto.
Qed.

Lemma any_lazy_None k acc acc' s :
  Re.any_lazy k acc s = None → Re.any_lazy k acc' s = None.
Proof.
  revert acc acc'. induction s as [|c s IH]; intros acc acc'; simpl.
  - by destruct (k []).
  - destruct (k (c :: s)); [done|]. apply IH.
Qed.

Lemma match_re_open s :
  Re.match_here ([Re.Opt (N.eqb lbracket); Re.Capture Re.Lazy] ++ re_close) s
  = Re.any_lazy (Re.match_here re_close) [] (skip1 lbracket s).
Proof.
  cbn [app Re.match_here].
  destruct s as [|c s]; [done|]. cbn [skip1].
  destruct (N.eqb_spec lbracket c) as [<-|Hne]; [|done].
  destruct (Re.any_lazy (Re.match_here re_close) [] s) eqn:E; [done|].
  cbn [Re.any_lazy].
  assert (Re.match_here re_close (lbracket :: s) = None) as ->
    by by apply (match_re_close_head _ lbracket).
  by apply (any_lazy_None _ []).
Qed.

Lemma action_regex_eq :
  action_regex
  = (Re.Chr <$> lit "Action: ")
    ++ ([Re.Opt (N.eqb lbracket); Re.Capture Re.Lazy] ++ re_close).
Proof. reflexivity. Qed.

Lemma match_action_regex s :
  Re.match_here action_regex s
  = if Py.startswith s (lit "Action: ")
    then Re.any_lazy (Re.match_here re_close) [] (skip1 lbracket (drop 8 s))
    else None.
Proof.
  rewrite action_regex_eq, match_here_chrs.
  destruct (Py.startswith _ _); [|done]. apply match_re_open.
Qed.

Lemma skip1_split c s :
  ∃ o, s = o ++ skip1 c s ∧ (o = [] ∧ head s ≠ Some c ∨ o = [c]).
Proof.
  destruct s as [|a s]; cbn [skip1].
  - exists []. split; [done|]. by left.
  - destruct (N.eqb_spec c a) as [<-|Hne].
    + exists [c]. split; [done|]. by right.
    + exists []. split; [done|]. left. split; [done|]. simpl. congruence.
Qed.

Lemma skip1_id c s : head s ≠ Some c → skip1 c s = s.
Proof.
  destruct s as [|a s]; cbn [skip1 head]; [done|].
  destruct (N.eqb_spec c a) as [<-|Hne]; [done|done].
Qed.

Lemma search_inv r s gs :
  Re.search r s = Some gs → ∃ pre x, s = pre ++ x ∧ Re.match_here r x = Some gs.
Proof.
  induction s as [|c s IH]; cbn [Re.search].
  - destruct (Re.match_here r []) eqn:E; [|done]. intros [= <-]. by exists [], [].
  - destruct (Re.match_here r (c :: s)) eqn:E.
    + intros [= <-]. by exists [], (c :: s).
    + intros (pre & x & -> & Hx)%IH. by exists (c :: pre), x.
Qed.

Lemma search_complete r pre x :
  is_Some (Re.match_here r x) → is_Some (Re.search r (pre ++ x)).
Proof.
  intros [gs Hx]. induction pre as [|c pre IH]; simpl.
  - destruct x; cbn [Re.search]; rewrite Hx; eauto.
  - cbn [Re.search]. destruct (Re.match_here r (c :: pre ++ x)); eauto.
Qed.

Lemma Forall_eqb_nl l :
  Forall (λ c, (nl =? c)%N = true) l ↔ Forall (λ c, c = nl) l.
Proof. apply Forall_iff. intros c. rewrite N.eqb_eq. naive_solver. Qed.

Lemma match_re_close_inv x gs :
  Re.match_here re_close x = Some gs →
  ∃ cb nls ws g2,
    x = cb ++ nls ++ lit "Action Input:" ++ ws ++ g2 ∧ gs = [g2]
    ∧ (cb = [] ∧ head x ≠ Some rbracket ∨ cb = [rbracket])
    ∧ Forall (λ c, c = nl) nls
    ∧ Forall (λ c, Py.isspace c = true) ws
    ∧ (∀ c, head g2 = Some c → Py.isspace c = false).
Proof.
  rewrite match_re_close, match_re_input.
  destruct (Py.startswith _ _) eqn:E; [|done]. intros [= <-].
  apply startswith_inv in E.
  destruct (skip1_split rbracket x) as (cb & Hx & Hcb).
  destruct (lstrip_by_split (N.eqb nl) (skip1 rbracket x)) as (nls & Hy & Hnls).
  set (z := drop 13 (Py.lstrip_by (N.eqb nl) (skip1 rbracket x))) in *.
  destruct (lstrip_by_split Py.isspace z) as (ws & Hz & Hws).
  exists cb, nls, ws, (Py.lstrip_by Py.isspace z). split_and!; try done.
  - rewrite <- Hz. change (length (lit "Action Input:")) with 13 in E.
    fold z in E. by rewrite <- E, <- Hy.
  - by apply Forall_eqb_nl.
  - intros c. apply lstrip_by_head.
Qed.

Lemma match_re_close_rbracket x :
  head x ≠ Some rbracket →
  Re.match_here re_close (rbracket :: x) = Re.match_here re_close x.
Proof.
  intros Hx. rewrite !match_re_close. cbn [skip1].
  rewrite N.eqb_refl. by rewrite skip1_id.
Qed.

Lemma match_action_inv s gs :
  Re.match_here action_regex s = Some gs →
  ∃ ob g1 cb nls ws g2,
    s = lit "Action: " ++ ob ++ g1 ++ cb ++ nls ++ lit "Action Input:" ++ ws ++ g2
    ∧ gs = [g1; g2]
    ∧ (ob = [] ∧ head g1 ≠ Some lbracket ∨ ob = [lbracket])
    ∧ (cb = [] ∧ last g1 ≠ Some rbracket ∨ cb = [rbracket])
    ∧ Forall (λ c, c = nl) nls
    ∧ Forall (λ c, Py.isspace c = true) ws
    ∧ (∀ c, head g2 = Some c → Py.isspace c = false).
Proof.
  rewrite match_action_regex.
  destruct (Py.startswith _ _) eqn:E; [|done].
  apply startswith_inv in E. change (length (lit "Action: ")) with 8 in E.
  set (s1 := drop 8 s) in *.
  intros (g1 & x & gs' & Hs1 & Hx & -> & Hmin)%any_lazy_inv.
  destruct (match_re_close_inv _ _ Hx) as (cb & nls & ws & g2 & Hxeq & -> & Hcb & Hnls & Hws & Hg2).
  destruct (skip1_split lbracket s1) as (ob & Hob & Hobc).
  exists ob, g1, cb, nls, ws, g2. split_and!; try done.
  - by rewrite E, Hob, Hs1, Hxeq.
  - destruct Hobc as [[-> Hh]| ->]; [left|by right]. split; [done|].
    intros Hg1. apply Hh. rewrite Hob, Hs1. simpl. by destruct g1.
  - destruct Hcb as [[-> Hh]| ->]; [left|by right]. split; [done|].
    intros Hg1. destruct (decide (g1 = [])) as [-> |Hne]; [done|].
    apply exists_last in Hne as (g0 & c & ->). rename g0 into g1.
    rewrite last_snoc in Hg1. injection Hg1 as ->.
    assert (Re.match_here re_close (rbracket :: x) = None) as Hnone.
    { apply (Hmin g1); [by rewrite Hs1, <- app_assoc|].
      rewrite length_app. simpl. lia. }
    rewrite match_re_close_rbracket in Hnone by done. congruence.
Qed.

Lemma head_newlines nls t :
  Forall (λ c, c = nl) nls →
  ∃ c, head (nls ++ lit "Action Input:" ++ t) = Some c ∧ (c = nl ∨ c = 65%N).
Proof. intros [|c l -> _]; simpl; eauto. Qed.

Lemma head_close cb nls t :
  (cb = [] ∨ cb = [rbracket]) → Forall (λ c, c = nl) nls →
  ∃ c, head (cb ++ nls ++ lit "Action Input:" ++ t) = Some c
       ∧ (c = rbracket ∨ c = nl ∨ c = 65%N).
Proof.
  intros [-> | ->] Hnls.
  - destruct Hnls as [|c nls -> _]; simpl; eauto.
  - simpl. eauto.
Qed.

Lemma match_re_close_complete cb nls ws input :
  (cb = [] ∨ cb = [rbracket]) → Forall (λ c, c = nl) nls →
  is_Some (Re.match_here re_close
             (cb ++ nls ++ lit "Action Input:" ++ ws ++ input)).
Proof.
  intros Hcb Hnls. rewrite match_re_close.
  assert (skip1 rbracket (cb ++ nls ++ lit "Action Input:" ++ ws ++ input)
          = nls ++ lit "Action Input:" ++ ws ++ input) as ->.
  { destruct Hcb as [-> | ->].
    - rewrite app_nil_l. apply skip1_id.
      destruct (head_newlines nls (ws ++ input)) as (c & Hc & Hcs); [done|].
      rewrite Hc. intros [= ->]. destruct Hcs as [?|?]; done.
    - cbn [app skip1]. by rewrite N.eqb_refl. }
  rewrite lstrip_by_app.
  - rewrite match_re_input, startswith_app. eauto.
  - by apply Forall_eqb_nl.
  - intros c [= <-]. done.
Qed.

Lemma action_regex_complete s :
  action_grammar s → is_Some (Re.search action_regex s).
Proof.
  intros (pre & ob & name & cb & nls & ws & input & -> & Hob & Hcb & Hnls & _).
  apply search_complete. rewrite match_action_regex, startswith_app.
  change 8 with (length (lit "Action: ")). rewrite drop_app_length.
  set (x := cb ++ nls ++ lit "Action Input:" ++ ws ++ input).
  assert (is_Some (Re.match_here re_close x)) as Hx
    by by apply match_re_close_complete.
  assert (∃ g, skip1 lbracket (ob ++ name ++ x) = g ++ x) as [g ->].
  { destruct Hob as [-> | ->].
    - rewrite app_nil_l.
      destruct (skip1_split lbracket (name ++ x)) as (o & Ho & [[-> _]| ->]).
      + exists name. rewrite app_nil_l in Ho. by rewrite <- Ho.
      + destruct name as [|c name].
        * destruct (head_close cb nls (ws ++ input)) as (c & Hc & Hcs); [done..|].
          fold x in Hc. rewrite app_nil_l in Ho. rewrite Ho in Hc.
          injection Hc as <-. destruct Hcs as [?|[?|?]]; done.
        * exists name. assert (c = lbracket) as -> by by injection Ho.
          cbn [app skip1]. by rewrite N.eqb_refl.
    - exists name. cbn [app skip1]. by rewrite N.eqb_refl. }
  by apply any_lazy_complete.
Qed.

Lemma action_regex_sound s gs :
  Re.search action_regex s = Some gs → action_grammar s.
Proof.
  intros (pre & x & -> & Hx)%search_inv.
  apply match_action_inv in Hx
    as (ob & g1 & cb & nls & ws & g2 & -> & _ & Hob & Hcb & Hnls & Hws & _).
  exists pre, ob, g1, cb, nls, ws, g2. split_and!; try done.
  - destruct Hob as [[-> _]| ->]; auto.
  - destruct Hcb as [[-> _]| ->]; auto.
Qed.

(** *** The first match *)

Lemma token_shape_action :
  ∃ t, lit "Action: " = 65%N :: t ∧ 65%N ∉ t.
Proof. eexists. split; [reflexivity|]. apply (bool_decide_unpack _). by vm_compute. Qed.

Lemma token_shape_input :
  ∃ t, lit "Action Input:" = 65%N :: t ∧ (65%N ∉ t) ∧ (nl ∉ t) ∧ (rbracket ∉ t).
Proof.
  eexists. split; [reflexivity|].
  split_and!; apply (bool_decide_unpack _); by vm_compute.
Qed.

Lemma search_here r x gs :
  Re.match_here r x = Some gs → Re.search r x = Some gs.
Proof. intros H. destruct x; cbn [Re.search]; by rewrite H. Qed.

Lemma search_skip r pre x :
  (∀ pre1 x1, pre = pre1 ++ x1 → x1 ≠ [] → Re.match_here r (x1 ++ x) = None) →
  Re.search r (pre ++ x) = Re.search r x.
Proof.
  induction pre as [|c pre IH]; intros Hnone; [done|].
  cbn [app Re.search].
  assert (Re.match_here r (c :: pre ++ x) = None) as ->
    by by apply (Hnone [] (c :: pre)).
  apply IH. intros pre1 x1 -> Hx1. by apply (Hnone (c :: pre1)).
Qed.

Lemma search_inv_first r s gs :
  Re.search r s = Some gs →
  ∃ pre x, s = pre ++ x ∧ Re.match_here r x = Some gs
    ∧ ∀ pre1 x1, pre = pre1 ++ x1 → x1 ≠ [] → Re.match_here r (x1 ++ x) = None.
Proof.
  induction s as [|c s IH]; cbn [Re.search].
  - destruct (Re.match_here r []) eqn:E; [|done]. intros [= <-].
    exists [], []. split_and!; [done..|]. by intros [] [].
  - destruct (Re.match_here r (c :: s)) eqn:E.
    + intros [= <-]. exists [], (c :: s). split_and!; [done..|]. by intros [] [].
    + intros (pre & x & -> & Hx & Hmin)%IH. exists (c :: pre), x.
      split_and!; [done..|]. intros [|c' pre1] x1 Heq Hx1; simpl in Heq.
      * by subst x1.
      * injection Heq as _ ->. by apply (Hmin pre1).
Qed.

Lemma any_lazy_first k acc g x gs :
  k x = Some gs →
  (∀ g1 g2, g = g1 ++ g2 → g2 ≠ [] → k (g2 ++ x) = None) →
  Re.any_lazy k acc (g ++ x) = Some ((reverse acc ++ g) :: gs).
Proof.
  intros Hx. revert acc. induction g as [|c g IH]; intros acc Hmin.
  - rewrite app_nil_r. destruct x; cbn [app Re.any_lazy]; by rewrite Hx.
  - cbn [app Re.any_lazy].
    assert (k (c :: g ++ x) = None) as -> by by apply (Hmin [] (c :: g)).
    rewrite IH.
    + by rewrite reverse_cons, <- app_assoc.
    + intros g1 g2 -> Hg2. by apply (Hmin (c :: g1)).
Qed.

Lemma match_action_None s :
  Py.startswith s (lit "Action: ") = false → Re.match_here action_regex s = None.
Proof. intros H. by rewrite match_action_regex, H. Qed.

Lemma match_action_complete name nls ws input :
  Forall (λ c, c = nl) nls →
  is_Some (Re.match_here action_regex
             (lit "Action: " ++ name ++ nls ++ lit "Action Input:" ++ ws ++ input)).
Proof.
  intros Hnls. rewrite match_action_regex, startswith_app.
  change 8 with (length (lit "Action: ")). rewrite drop_app_length.
  set (x := nls ++ lit "Action Input:" ++ ws ++ input).
  assert (is_Some (Re.match_here re_close x)) as Hx.
  { apply (match_re_close_complete [] nls ws input); [by left|done]. }
  assert (∃ g, skip1 lbracket (name ++ x) = g ++ x) as [g ->];
    [|by apply any_lazy_complete].
  destruct (skip1_split lbracket (name ++ x)) as (o & Ho & [[-> _]| ->]).
  - exists name. rewrite app_nil_l in Ho. by rewrite <- Ho.
  - destruct name as [|c name].
    + destruct (head_newlines nls (ws ++ input)) as (c & Hc & Hcs); [done|].
      fold x in Hc. rewrite app_nil_l in Ho. rewrite Ho in Hc.
      injection Hc as <-. destruct Hcs as [?|?]; done.
    + exists name. assert (c = lbracket) as -> by by injection Ho.
      cbn [app skip1]. by rewrite N.eqb_refl.
Qed.

Lemma last_app_nonempty {A} (l1 l2 : list A) : l2 ≠ [] → last (l1 ++ l2) = last l2.
Proof.
  intros H. destruct (exists_last H) as (l & x & ->).
  by rewrite app_assoc, !last_snoc.
Qed.

Lemma close_chars cb nls :
  (cb = [] ∨ cb = [rbracket]) → Forall (λ c, c = nl) nls →
  Forall (λ c, c = rbracket ∨ c = nl) (cb ++ nls).
Proof.
  intros Hcb Hnls. apply Forall_app. split.
  - destruct Hcb as [-> | ->]; repeat constructor.
  - eapply Forall_impl; [done|]. intros c ->. by right.
Qed.

Lemma head_of_prefix (c0 : N) (t k rest v : list N) :
  k ≠ [] → (c0 :: t) ++ v = k ++ rest → head k = Some c0.
Proof. intros Hk Heq. destruct k as [|a k]; [done|]. by injection Heq as ->. Qed.

(** The inversion of a match of the whole pattern, with what the laziness
    of the first group rules out. *)
Lemma match_action_inv_lazy s gs :
  Re.match_here action_regex s = Some gs →
  ∃ ob g1 cb nls ws g2,
    s = lit "Action: " ++ ob ++ g1 ++ cb ++ nls ++ lit "Action Input:" ++ ws ++ g2
    ∧ gs = [g1; g2]
    ∧ (ob = [] ∧ head g1 ≠ Some lbracket ∨ ob = [lbracket])
    ∧ (cb = [] ∧ last g1 ≠ Some rbracket ∨ cb = [rbracket])
    ∧ Forall (λ c, c = nl) nls
    ∧ Forall (λ c, Py.isspace c = true) ws
    ∧ (∀ c, head g2 = Some c → Py.isspace c = false)
    ∧ ∀ g' x', g1 = g' ++ x' → x' ≠ [] →
        Re.match_here re_close
          (x' ++ cb ++ nls ++ lit "Action Input:" ++ ws ++ g2) = None.
Proof.
  intros Hs.
  destruct (match_action_inv _ _ Hs)
    as (ob & g1 & cb & nls & ws & g2 & Heq & Hgs & Hob & Hcb & Hnls & Hws & Hg2).
  exists ob, g1, cb, nls, ws, g2. split_and!; try done.
  rewrite match_action_regex in Hs.
  destruct (Py.startswith _ _) eqn:E; [|done].
  assert (skip1 lbracket (drop 8 s)
          = g1 ++ cb ++ nls ++ lit "Action Input:" ++ ws ++ g2) as Hskip.
  { rewrite Heq. change 8 with (length (lit "Action: ")). rewrite drop_app_length.
    destruct Hob as [[-> Hh]| ->]; [|cbn [app skip1]; by rewrite N.eqb_refl].
    rewrite app_nil_l. apply skip1_id.
    destruct g1 as [|a g1]; [|done]. rewrite app_nil_l.
    destruct (head_close cb nls (ws ++ g2)) as (c & Hc & Hcs); [|done|].
    - destruct Hcb as [[-> _]| ->]; auto.
    - rewrite Hc. intros [= ->]. destruct Hcs as [?|[?|?]]; done. }
  rewrite Hskip in Hs.
  apply any_lazy_inv in Hs as (g & x & gs' & Hsplit & Hx & Hgs' & Hmin).
  rewrite Hgs in Hgs'. injection Hgs' as Hg _.
  change (reverse [] ++ g) with g in Hg. subst g.
  apply app_inv_head in Hsplit. subst x.
  intros g' x' -> Hx'. apply (Hmin g').
  - by rewrite <- app_assoc.
  - rewrite length_app. destruct x'; [done|]. simpl. lia.
Qed.

(** What [re.search] finds is the first action of the text. *)
Lemma search_first_action generated gs :
  Re.search action_regex generated = Some gs →
  ∃ pre ob g1 cb nls ws g2,
    first_action generated pre ob g1 cb nls ws g2 ∧ gs = [g1; g2].
Proof.
  intros Hsearch.
  apply search_inv_first in Hsearch as (pre & x & -> & Hx & Hleft).
  apply match_action_inv_lazy in Hx
    as (ob & g1 & cb & nls & ws & g2 & -> & -> & Hob' & Hcb' & Hnls & Hws & Hg2 & Hlazy).
  exists pre, ob, g1, cb, nls, ws, g2. split; [|done].
  assert (ob = [] ∨ ob = [lbracket]) as Hob by (destruct Hob' as [[-> _]| ->]; auto).
  assert (cb = [] ∨ cb = [rbracket]) as Hcb by (destruct Hcb' as [[-> _]| ->]; auto).
  destruct token_shape_input as (t & Htok & HA & Hnlt & Hrbt).
  unfold first_action. split_and!; try done.
  - split; [done|]. intros pre' post' Heq.
    destruct (decide (length pre ≤ length pre')) as [|Hlt]; [done|exfalso].
    apply app_eq_inv in Heq as [(k & Hpre & Hr)|(k & Hpre & Hr)].
    + assert (k ≠ []) as Hk.
      { intros ->. rewrite app_nil_r in Hpre. subst pre'. lia. }
      specialize (Hleft pre' k Hpre Hk). rewrite <- Hr in Hleft.
      (* what follows the earlier label still holds the later "Action Input:" *)
      assert (∃ name, post' = name ++ [] ++ lit "Action Input:" ++ ws ++ g2)
        as [name ->].
      { symmetry in Hr.
        rewrite !(app_assoc _ _ (lit "Action Input:" ++ ws ++ g2)) in Hr.
        apply app_eq_inv in Hr as [(k2 & Hl & Hp)|(k2 & Hl & Hp)].
        - by exists k2.
        - apply (f_equal length) in Hl. rewrite !length_app in Hl.
          destruct k; [done|]. simpl in Hl. lia. }
      destruct (match_action_complete name [] ws g2) as [? Hsome]; [done|].
      congruence.
    + rewrite Hpre, length_app in Hlt. lia.
  - split; [done|]. intros u v Heq.
    destruct (decide (length (ob ++ g1 ++ cb ++ nls) ≤ length u)) as [|Hlt];
      [done|exfalso].
    apply app_eq_inv in Heq as [(k & Hmid & Hr)|(k & Hu & Hr)];
      [|rewrite Hu, !length_app in Hlt; lia].
    assert (k ≠ []) as Hk.
    { intros ->. rewrite app_nil_r in Hmid. rewrite Hmid in Hlt. lia. }
    rewrite Htok in Hr.
    pose proof (head_of_prefix _ _ _ _ _ Hk Hr) as Hhead.
    (* where in [ob ++ g1 ++ cb ++ nls] the earlier occurrence starts *)
    assert (Forall (λ c, c = rbracket ∨ c = nl) (cb ++ nls)) as Hcn
      by by apply close_chars.
    apply app_eq_inv in Hmid as [(k1 & Hob1 & Hk1)|(k1 & Hu1 & Hk1)].
    + destruct k1 as [|a k1].
      * rewrite app_nil_l in Hk1. subst k.
        destruct g1 as [|a g1].
        -- rewrite app_nil_l in Hhead. destruct (cb ++ nls) as [|b l] eqn:El; [done|].
           injection Hhead as ->. apply Forall_cons in Hcn as [[?|?] _]; done.
        -- specialize (Hlazy [] (a :: g1) eq_refl ltac:(done)).
           rewrite <- Htok in Hr. rewrite <- !app_assoc in Hr. rewrite <- Hr in Hlazy.
           destruct (match_re_close_complete [] [] [] v) as [? Hsome];
             [by left|done|]. simpl in Hsome, Hlazy. congruence.
      * subst k. simpl in Hhead. injection Hhead as ->.
        destruct Hob as [-> | ->]; [by destruct u|].
        destruct u as [|b u]; simpl in Hob1; [by injection Hob1|].
        injection Hob1 as _ Hob1. by destruct u.
    + apply app_eq_inv in Hk1 as [(k2 & Hg & Hk2)|(k2 & Hk2 & Hg)]; last first.
      * (* inside [cb ++ nls] *)
        rewrite Hg in Hcn. apply Forall_app in Hcn as [_ Hcn].
        destruct k as [|a k]; [done|]. injection Hhead as ->.
        apply Forall_cons in Hcn as [[?|?] _]; done.
      * destruct k2 as [|a k2].
        -- rewrite app_nil_l in Hk2. subst k.
           destruct (cb ++ nls) as [|b l] eqn:El; [done|].
           injection Hhead as ->. apply Forall_cons in Hcn as [[?|?] _]; done.
        -- specialize (Hlazy k1 (a :: k2) Hg ltac:(done)).
           subst k. rewrite <- Htok in Hr. rewrite <- !app_assoc in Hr.
           rewrite <- Hr in Hlazy.
           destruct (match_re_close_complete [] [] [] v) as [? Hsome];
             [by left|done|]. simpl in Hsome, Hlazy. congruence.
  - destruct Hcb' as [[-> Hl]| ->]; [left|by right]. split_and!; [done|done|].
    intros Hn. destruct (decide (g1 = [])) as [-> |Hne]; [done|].
    apply exists_last in Hne as (g0 & c & ->). rewrite last_snoc in Hn.
    injection Hn as ->.
    specialize (Hlazy g0 [nl] eq_refl ltac:(done)).
    destruct (match_re_close_complete [] (nl :: nls) ws g2) as [? Hsome];
      [by left|by constructor|].
    rewrite app_nil_l in Hlazy. cbn [app] in Hsome, Hlazy. congruence.
  - intros c Hc Hsp. apply Hg2 in Hc. unfold is_space in Hsp. congruence.
Qed.

(** A closing bracket and newlines cannot reach back over the end of a
    name that leaves them out. *)
Lemma close_run_shape (o n gb cb nls : list N) c :
  (o = [] ∨ o = [rbracket]) → Forall (λ c, c = nl) n →
  o ++ n = gb ++ cb ++ nls → last gb = Some c →
  (cb = [] ∧ c ≠ rbracket ∧ c ≠ nl ∨ cb = [rbracket]) → False.
Proof.
  intros Ho Hn Heq Hlast Hcb.
  assert (rbracket ∉ n) as Hrb.
  { intros Hin. rewrite Forall_forall in Hn. by apply Hn in Hin. }
  destruct Hcb as [(-> & Hc1 & Hc2)| ->].
  - assert (c ∈ o ++ n) as Hin.
    { rewrite Heq. apply elem_of_app. left. by apply last_Some_elem_of. }
    apply elem_of_app in Hin as [Hin|Hin].
    + destruct Ho as [-> | ->]; [by apply elem_of_nil in Hin|].
      by apply list_elem_of_singleton in Hin.
    + rewrite Forall_forall in Hn. by apply Hn in Hin.
  - destruct gb as [|a gb]; [done|].
    destruct Ho as [-> | ->].
    + apply Hrb. rewrite app_nil_l in Heq. rewrite Heq. set_solver.
    + simpl in Heq. injection Heq as _ ->. apply Hrb. set_solver.
Qed.

(** The search finds the first action: the conditions of [first_action]
    leave one way to cut the text, the way of the pattern. *)
Lemma first_action_search generated pre ob g1 cb nls ws g2 :
  first_action generated pre ob g1 cb nls ws g2 →
  Re.search action_regex generated = Some [g1; g2].
Proof.
  intros ([Hgen Hfirst] & [_ Hfirst2] & Hob' & Hcb' & Hnls & Hws & Hg2).
  assert (ob = [] ∨ ob = [lbracket]) as Hob by (destruct Hob' as [[-> _]| ->]; auto).
  assert (cb = [] ∨ cb = [rbracket]) as Hcb by (destruct Hcb' as [(-> & _)| ->]; auto).
  set (x := cb ++ nls ++ lit "Action Input:" ++ ws ++ g2) in *.
  assert (Re.match_here re_close x = Some [g2]) as Hx.
  { unfold x. rewrite match_re_close.
    assert (skip1 rbracket (cb ++ nls ++ lit "Action Input:" ++ ws ++ g2)
            = nls ++ lit "Action Input:" ++ ws ++ g2) as ->.
    { destruct Hcb as [-> | ->].
      - rewrite app_nil_l. apply skip1_id.
        destruct (head_newlines nls (ws ++ g2)) as (c & Hc & Hcs); [done|].
        rewrite Hc. intros [= ->]. destruct Hcs as [?|?]; done.
      - cbn [app skip1]. by rewrite N.eqb_refl. }
    rewrite lstrip_by_app; [|by apply Forall_eqb_nl|by intros c [= <-]].
    rewrite match_re_input, startswith_app.
    change 13 with (length (lit "Action Input:")). rewrite drop_app_length.
    rewrite lstrip_by_app; [done|done|].
    intros c Hc. specialize (Hg2 c Hc). unfold is_space in Hg2.
    by destruct (Py.isspace c). }
  rewrite Hgen, search_skip.
  - apply search_here. rewrite match_action_regex, startswith_app.
    change 8 with (length (lit "Action: ")). rewrite drop_app_length.
    assert (skip1 lbracket (ob ++ g1 ++ x) = g1 ++ x) as ->.
    { destruct Hob' as [[-> Hh]| ->]; [|cbn [app skip1]; by rewrite N.eqb_refl].
      rewrite app_nil_l. apply skip1_id.
      destruct g1 as [|a g1]; [|done]. rewrite app_nil_l.
      destruct (head_close cb nls (ws ++ g2)) as (c & Hc & Hcs); [done..|].
      fold x in Hc. rewrite Hc. intros [= ->]. destruct Hcs as [?|[?|?]]; done. }
    rewrite (any_lazy_first _ [] g1 x [g2] Hx); [done|].
    intros ga gb -> Hgb.
    rewrite match_re_close, match_re_input.
    destruct (Py.startswith _ _) eqn:E; [exfalso|done].
    apply startswith_iff in E as [z Hz].
    destruct (skip1_split rbracket (gb ++ x)) as (o & Ho & Hoc).
    destruct (lstrip_by_split (N.eqb nl) (skip1 rbracket (gb ++ x))) as (n & Hn & Hnn).
    rewrite Hz in Hn. rewrite Hn in Ho. apply Forall_eqb_nl in Hnn.
    assert (o = [] ∨ o = [rbracket]) as Ho' by (destruct Hoc as [[-> _]| ->]; auto).
    destruct (last gb) as [c|] eqn:Hc; [|by apply last_None in Hc].
    assert (last (ga ++ gb) = Some c) as Hc' by by rewrite last_app_nonempty.
    assert (o ++ n = gb ++ cb ++ nls) as Hrun; last first.
    { apply (close_run_shape o n gb cb nls c); try done.
      destruct Hcb' as [(-> & H1 & H2)| ->]; [left|by right].
      rewrite Hc' in H1, H2. split_and!; [done|congruence|congruence]. }
    destruct token_shape_input as (t & Htok & HA & Hnlt & Hrbt).
    assert (Forall (λ c, c = rbracket ∨ c = nl) (o ++ n)) as Hon.
    { exact (close_chars o n Ho' Hnn). }
    rewrite (app_assoc o n) in Ho.
    apply app_eq_inv in Ho as [(k & Hgbk & Hr)|(k & Hu & Hr)].
    + (* "Action Input:" would start inside [gb] or right after it *)
      specialize (Hfirst2 (ob ++ ga ++ o ++ n) z).
      rewrite !length_app in Hfirst2.
      assert (length ob + (length ga + length gb + (length cb + length nls))
              ≤ length ob + (length ga + (length o + length n))) as Hlen.
      { apply Hfirst2. fold x. rewrite Hgbk, <- !app_assoc.
        do 4 f_equal. symmetry. exact Hr. }
      rewrite Hgbk, !length_app in Hlen.
      assert (k = []) as -> by (apply nil_length_inv; lia).
      assert (cb = []) as -> by (apply nil_length_inv; lia).
      assert (nls = []) as -> by (apply nil_length_inv; lia).
      by rewrite Hgbk, !app_nil_r.
    + (* the run of bracket and newlines starts inside [gb] *)
      specialize (Hfirst2 (ob ++ ga ++ gb ++ k) z).
      rewrite !length_app in Hfirst2.
      assert (length ob + (length ga + length gb + (length cb + length nls))
              ≤ length ob + (length ga + (length gb + length k))) as Hlen.
      { apply Hfirst2. rewrite <- !app_assoc. do 3 f_equal. exact Hr. }
      rewrite Hu. f_equal.
      unfold x in Hr. rewrite (app_assoc cb nls) in Hr.
      apply app_eq_inv in Hr as [(k' & Hk & Hr)|(k' & Hk & Hr)].
      * pose proof (f_equal length Hk) as Hk'. rewrite !length_app in Hk'.
        assert (k' = []) as -> by (apply nil_length_inv; lia).
        by rewrite app_nil_r in Hk.
      * destruct k' as [|a k']; [by rewrite app_nil_r in Hk|exfalso].
        rewrite Htok in Hr.
        simpl in Hr. injection Hr as <- _.
        rewrite Hu, Hk in Hon. rewrite !Forall_app in Hon.
        destruct Hon as (_ & _ & Hon). apply Forall_cons in Hon as [[?|?] _]; done.
  - intros pre1 x1 Hpre Hx1. apply match_action_None.
    destruct (Py.startswith _ _) eqn:E; [exfalso|done].
    apply startswith_iff in E as [z Hz].
    specialize (Hfirst pre1 z). rewrite Hpre, length_app in Hfirst.
    assert (length pre1 + length x1 ≤ length pre1) as Hlen.
    { apply Hfirst. rewrite Hgen, Hpre, <- app_assoc. by rewrite Hz. }
    destruct x1; [done|]. simpl in Hlen. lia.
Qed.

Lemma first_action_unique generated pre ob g1 cb nls ws g2 pre' ob' g1' cb' nls' ws' g2' :
  first_action generated pre ob g1 cb nls ws g2 →
  first_action generated pre' ob' g1' cb' nls' ws' g2' →
  g1' = g1 ∧ g2' = g2.
Proof.
  intros H1%first_action_search H2%first_action_search.
  rewrite H1 in H2. by injection H2 as -> ->.
Qed.

(** ** The parser *)

Lemma final_token_shape :
  ∃ t, FINAL_ANSWER_TOKEN = 70%N :: t ∧ 70%N ∉ t.
Proof.
  eexists. split; [reflexivity|]. apply (bool_decide_unpack _). by vm_compute.
Qed.

Lemma final_token_nonempty : FINAL_ANSWER_TOKEN ≠ [].
Proof. destruct final_token_shape as (t & -> & _). done. Qed.

Lemma split_final_last s :
  ∃ pieces, Py.split s FINAL_ANSWER_TOKEN = Some pieces
    ∧ last pieces = Some (default s (after_last FINAL_ANSWER_TOKEN s)).
Proof.
  destruct final_token_shape as (t & Htok & Ht). rewrite Htok.
  eexists. split; [reflexivity|].
  by apply (split_go_last _ _ _ Ht 0 [] (70%N :: t) [] s); [rewrite app_nil_r|..|left|].
Qed.

Lemma contains_after_last sep s :
  Py.contains sep s = true → sep ≠ [] → is_Some (after_last sep s).
Proof.
  intros Hc Hsep. destruct (after_last sep s) eqn:E; [eauto|].
  apply after_last_None in E as [E|E]; congruence.
Qed.

Lemma final_branch generated :
  occurs FINAL_ANSWER_TOKEN generated →
  ∃ pre post,
    last_occurrence FINAL_ANSWER_TOKEN generated pre post
    ∧ Agent._get_tool_and_input generated = Ok (lit "Final Answer", Py.strip post).
Proof.
  intros Hocc. apply contains_iff in Hocc.
  destruct (contains_after_last _ _ Hocc final_token_nonempty) as [post Hpost].
  destruct (after_last_Some _ _ _ final_token_nonempty Hpost) as [pre Hlast].
  exists pre, post. split; [done|].
  unfold Agent._get_tool_and_input. rewrite Hocc.
  destruct (split_final_last generated) as (pieces & -> & ->).
  by rewrite Hpost.
Qed.

Lemma action_branch generated tool tool_input :
  ¬ occurs FINAL_ANSWER_TOKEN generated →
  Agent._get_tool_and_input generated = Ok (tool, tool_input) →
  ∃ groups,
    Re.search action_regex generated = Some groups
    ∧ tool = Py.strip (Re.group groups 1)
    ∧ tool_input
      = Py.strip_chars (Py.strip_chars (Re.group groups 2) (lit " ")) [dquote].
Proof.
  intros Hnot%contains_false. unfold Agent._get_tool_and_input. rewrite Hnot.
  destruct (Re.search action_regex generated) as [groups|]; [|done].
  intros [= <- <-]. eauto.
Qed.

(** C2.  When the text contains the final-answer marker, the parser
    returns the "Final Answer" pair whose text is what follows the last
    occurrence of the marker, with the whitespace at both ends removed. *)
Theorem final_answer_last_occurrence generated :
  occurs FINAL_ANSWER_TOKEN generated →
  ∃ pre post text,
    last_occurrence FINAL_ANSWER_TOKEN generated pre post
    ∧ text = Py.strip post
    ∧ trimmed_of is_space post text
    ∧ Agent._get_tool_and_input generated = Ok (lit "Final Answer", text).
Proof.
  intros (pre & post & Hlast & Hparse)%final_branch.
  exists pre, post, (Py.strip post). split_and!; try done. apply strip_spec.
Qed.

(** C1, as amended.  The parser is total, with three outcomes decided by
    two exclusive tests on the text.  The marker occurs: the result is the
    "Final Answer" pair with the text after the last marker, trimmed.  The
    marker does not occur and the text matches the action pattern: the
    result is the pair of the name and the input of the first action of
    the text, cut in the one way there is, which is the "Final Answer"
    pair again when the name reads so.  Neither: the result is the
    ValueError whose message contains the whole text. *)
Theorem parser_three_outcomes generated :
  (occurs FINAL_ANSWER_TOKEN generated
   ∧ ∃ pre post,
       last_occurrence FINAL_ANSWER_TOKEN generated pre post
       ∧ Agent._get_tool_and_input generated
         = Ok (lit "Final Answer", Py.strip post))
  ∨ (¬ occurs FINAL_ANSWER_TOKEN generated ∧ action_grammar generated
     ∧ ∃ pre ob g1 cb nls ws g2,
         first_action generated pre ob g1 cb nls ws g2
         ∧ Agent._get_tool_and_input generated
           = Ok (Py.strip g1,
                 Py.strip_chars (Py.strip_chars g2 (lit " ")) [dquote])
         ∧ ∀ pre' ob' g1' cb' nls' ws' g2',
             first_action generated pre' ob' g1' cb' nls' ws' g2' →
             g1' = g1 ∧ g2' = g2)
  ∨ (¬ occurs FINAL_ANSWER_TOKEN generated ∧ ¬ action_grammar generated
     ∧ Agent._get_tool_and_input generated
       = Raise (ValueError
                  (lit "Output of LLM is not parsable for next tool use: `"
                   ++ generated ++ lit "`"))).
Proof.
  destruct (Py.contains FINAL_ANSWER_TOKEN generated) eqn:Hc.
  - left. apply contains_iff in Hc. split; [done|]. by apply final_branch.
  - right. pose proof Hc as Hnot. apply contains_false in Hnot.
    unfold Agent._get_tool_and_input. rewrite Hc.
    destruct (Re.search action_regex generated) as [m|] eqn:Hm.
    + left. split_and!; [done|by eapply action_regex_sound|].
      apply search_first_action in Hm
        as (pre & ob & g1 & cb & nls & ws & g2 & Hfirst & ->).
      exists pre, ob, g1, cb, nls, ws, g2. split_and!; [done|done|].
      intros pre' ob' g1' cb' nls' ws' g2' Hfirst'.
      by apply (first_action_unique _ _ _ _ _ _ _ _ _ _ _ _ _ _ _ Hfirst Hfirst').
    + right. split_and!; [done| |done].
      intros [m Hm']%action_regex_complete. congruence.
Qed.

(** C6, as amended.  In the action branch the text is cut at its first
    "Action: " and at the first "Action Input:" after it.  The tool name is
    the first group with the whitespace at both ends removed, where one
    opening bracket right after "Action: " and one closing bracket right
    before the newlines that precede "Action Input:" are left out of the
    group when they are there; the tool input is the text after "Action
    Input:" and the whitespace that follows it, with the spaces at both
    ends and then the double quotes at both ends removed.  The text can be
    cut in one way only: every such cut gives the name and the input. *)
Theorem action_branch_trimming generated tool tool_input :
  ¬ occurs FINAL_ANSWER_TOKEN generated →
  Agent._get_tool_and_input generated = Ok (tool, tool_input) →
  (∃ pre ob g1 cb nls ws g2 mid,
     first_action generated pre ob g1 cb nls ws g2
     ∧ trimmed_of is_space g1 tool
     ∧ trimmed_of (λ c, c = 32%N) g2 mid
     ∧ trimmed_of (λ c, c = dquote) mid tool_input)
  ∧ ∀ pre ob g1 cb nls ws g2,
      first_action generated pre ob g1 cb nls ws g2 →
      tool = Py.strip g1
      ∧ tool_input = Py.strip_chars (Py.strip_chars g2 (lit " ")) [dquote].
Proof.
  intros Hnot Hparse.
  destruct (action_branch _ _ _ Hnot Hparse) as (groups & Hsearch & -> & ->).
  split.
  - apply search_first_action in Hsearch
      as (pre & ob & g1 & cb & nls & ws & g2 & Hfirst & ->).
    exists pre, ob, g1, cb, nls, ws, g2, (Py.strip_chars g2 (lit " ")).
    split_and!; [done|apply strip_spec|apply (strip_chars_spec g2 32%N)
                |apply strip_chars_spec].
  - intros pre ob g1 cb nls ws g2 Hfirst%first_action_search.
    rewrite Hfirst in Hsearch. by injection Hsearch as <-.
Qed.

(** ** The loop *)

Ltac unfold_body :=
  unfold Agent.body, Agent._get_next_action, Agent.getitem;
  unfold Agent.bind, Agent.incr_num_loops, Agent.get_prompt,
    Agent.get_previous_responses, Agent.lift, Agent.generate, Agent.ret,
    Agent.invoke, Agent.append;
  cbn [Agent.previous_responses Agent.num_loops Agent.world Agent.trace].

Section body_facts.
Context {Ext : Type} (format : str → str → Res str).
Implicit Types (self : Agent.t Ext) (st : Agent.State Ext)
  (m : gmap (list N) (Tool.t Ext)).

Lemma body_course self m st :
  course format self m st (Agent.body format self m st).1
                          (Agent.body format self m st).2.
Proof.
  unfold_body.
  destruct (format _ _) as [p|e] eqn:Hf; [|by constructor].
  destruct (LLM.generate (Agent.llm self) (Agent.world st) p _)
    as [[output|e] w] eqn:Hg;
    [|by econstructor].
  cbn [Agent.previous_responses Agent.num_loops Agent.world Agent.trace].
  destruct (Agent._get_tool_and_input output) as [[tool tool_input]|e] eqn:Hp;
    [|by econstructor].
  destruct (decide (tool = lit "Final Answer")) as [->|Hne]; [by econstructor|].
  destruct (m !! tool) as [t|] eqn:Hm; [|by econstructor].
  cbn [Agent.previous_responses Agent.num_loops Agent.world Agent.trace].
  destruct (Tool.run t w tool_input) as [[tool_result|e] w'] eqn:Hr.
  - cbn [Agent.previous_responses Agent.num_loops Agent.world Agent.trace fst snd].
    rewrite <- app_assoc. by econstructor.
  - cbn [Agent.previous_responses Agent.num_loops Agent.world Agent.trace fst snd].
    rewrite <- app_assoc. by econstructor.
Qed.

Lemma body_inv self m st r st' :
  Agent.body format self m st = (r, st') → course format self m st r st'.
Proof. intros H. pose proof (body_course self m st) as Hc. by rewrite H in Hc. Qed.

Lemma course_body self m st r st' :
  course format self m st r st' → Agent.body format self m st = (r, st').
Proof.
  intros Hc. unfold_body.
  destruct Hc;
    repeat first
      [ progress cbn [Agent.previous_responses Agent.num_loops Agent.world
                      Agent.trace]
      | match goal with
        | H : ?x = _ |- context [?x] => rewrite H
        | |- context [decide (?a = ?b)] => destruct (decide (a = b)); try done
        end ];
    try done; by rewrite <- app_assoc.
Qed.
End body_facts.

Section loop_facts.
Context {Ext : Type} (format : str → str → Res str).
Implicit Types (self : Agent.t Ext) (st : Agent.State Ext)
  (m : gmap (list N) (Tool.t Ext)).

Lemma llm_calls_app tr1 tr2 : llm_calls (tr1 ++ tr2) = llm_calls tr1 + llm_calls tr2.
Proof. unfold llm_calls. by rewrite filter_app, length_app. Qed.

Lemma course_counts self m st r st' :
  course format self m st r st' →
  Agent.num_loops st' = (Agent.num_loops st + 1)%Z
  ∧ llm_calls (Agent.trace st') ≤ llm_calls (Agent.trace st) + 1
  ∧ (r = Ok Agent.Continue →
     llm_calls (Agent.trace st') = llm_calls (Agent.trace st) + 1).
Proof.
  intros []; cbn [Agent.num_loops Agent.trace];
    rewrite ?llm_calls_app; cbn; split_and!; try done; lia.
Qed.

Lemma loop_iterate n fuel self m st st' :
  iterate format n self m st = Some st' →
  Agent.loop format (n + fuel) self m st = Agent.loop format fuel self m st'.
Proof.
  revert st. induction n as [|n IH]; intros st; cbn [iterate].
  - by intros [= ->].
  - cbn [Nat.add Agent.loop]. destruct (_ <? _)%Z; [|done].
    destruct (Agent.body format self m st) as [[[|v]|e] st1]; try done.
    apply IH.
Qed.

Lemma iterate_counts n self m st st' :
  iterate format n self m st = Some st' →
  Agent.num_loops st' = (Agent.num_loops st + Z.of_nat n)%Z
  ∧ llm_calls (Agent.trace st') = llm_calls (Agent.trace st) + n
  ∧ (0 < n → (Agent.num_loops st' ≤ Agent.max_loops self)%Z).
Proof.
  revert st. induction n as [|n IH]; intros st; cbn [iterate].
  - intros [= ->]. split_and!; lia.
  - destruct (Z.ltb_spec (Agent.num_loops st) (Agent.max_loops self)); [|done].
    destruct (Agent.body format self m st) as [[[|v]|e] st1] eqn:Hb; try done.
    intros (Hn & Hc & Hle)%IH.
    apply body_inv, course_counts in Hb as (Hn1 & _ & Hc1).
    split_and!; [lia|rewrite Hc, Hc1 by done; lia|].
    intros _. destruct n; [|lia]. lia.
Qed.

Lemma iterate_transcript n self m st st' :
  iterate format n self m st = Some st' →
  length (Agent.previous_responses st') = length (Agent.previous_responses st) + n.
Proof.
  revert st. induction n as [|n IH]; intros st; cbn [iterate].
  - intros [= ->]. lia.
  - destruct (_ <? _)%Z; [|done].
    destruct (Agent.body format self m st) as [[[|v]|e] st1] eqn:Hb; try done.
    intros ->%IH. apply body_inv in Hb. inversion Hb; subst.
    cbn [Agent.previous_responses]. rewrite length_app. simpl. lia.
Qed.

(** The loop ends, whatever the model and the tools do, with the counter
    within the budget and no more calls to the model than passes. *)
Lemma loop_terminates fuel self m st :
  Z.to_nat (Agent.max_loops self - Agent.num_loops st) < fuel →
  (Agent.num_loops st ≤ Agent.max_loops self)%Z →
  ∃ res st',
    Agent.loop format fuel self m st = Some (res, st')
    ∧ (Agent.num_loops st' ≤ Agent.max_loops self)%Z
    ∧ (Z.of_nat (llm_calls (Agent.trace st')) - Z.of_nat (llm_calls (Agent.trace st))
       ≤ Agent.num_loops st' - Agent.num_loops st)%Z.
Proof.
  revert st. induction fuel as [|fuel IH]; intros st Hfuel Hle; [lia|].
  cbn [Agent.loop].
  destruct (Z.ltb_spec (Agent.num_loops st) (Agent.max_loops self));
    [|exists (Ok None), st; split_and!; [done|done|lia]].
  destruct (Agent.body format self m st) as [r st1] eqn:Hb.
  apply body_inv, course_counts in Hb as (Hn1 & Hc1 & _).
  destruct r as [[|v]|e].
  - destruct (IH st1) as (res & st' & Hloop & Hn & Hc); [lia..|].
    exists res, st'. split_and!; [done|done|lia].
  - exists (Ok (Some v)), st1. split_and!; [done|lia|lia].
  - exists (Raise e), st1. split_and!; [done|lia|lia].
Qed.

Lemma loop_fell_through fuel self m st0 st :
  Agent.loop format fuel self m st0 = Some (Ok None, st) ↔
  ∃ n, n < fuel ∧ iterate format n self m st0 = Some st
       ∧ (Agent.max_loops self ≤ Agent.num_loops st)%Z.
Proof.
  revert st0. induction fuel as [|fuel IH]; intros st0.
  - split; [done|]. intros (n & Hn & _). lia.
  - cbn [Agent.loop]. split.
    + destruct (Z.ltb_spec (Agent.num_loops st0) (Agent.max_loops self)).
      * destruct (Agent.body format self m st0) as [[[|v]|e] st1] eqn:Hb; try done.
        intros (n & Hn & Hit & Hle)%IH. exists (S n). split_and!; [lia| |done].
        cbn [iterate]. destruct (Z.ltb_spec (Agent.num_loops st0) (Agent.max_loops self)); [|lia].
        by rewrite Hb.
      * intros [= <-]. exists 0. split_and!; [lia|done|done].
    + intros ([|n] & Hn & Hit & Hle); cbn [iterate] in Hit.
      * injection Hit as ->.
        destruct (Z.ltb_spec (Agent.num_loops st) (Agent.max_loops self)); [lia|done].
      * destruct (Z.ltb_spec (Agent.num_loops st0) (Agent.max_loops self)); [|done].
        destruct (Agent.body format self m st0) as [[[|v]|e] st1] eqn:Hb; try done.
        apply IH. exists n. split_and!; [lia|done|done].
Qed.


(** C5.  [run] ends with Python's [None], a plain return and not an
    exception, exactly when some number of passes, none of which returned
    or raised, has brought the counter up to the budget. *)
Theorem exhausted_budget_returns_None self question w fuel st :
  Agent.run format fuel self question w = Some (Ok None, st) ↔
  ∃ n, n < fuel
       ∧ iterate format n self (Agent.tool_by_names self) (Agent.initial w) = Some st
       ∧ (Agent.max_loops self ≤ Agent.num_loops st)%Z.
Proof. apply loop_fell_through. Qed.

(** C10.  A pass through the loop body that raises, for whatever reason,
    or that returns, leaves the transcript as it was at the start of the
    pass; a pass that goes on to the next one has added exactly one
    record, and the last thing it did to its collaborators was a tool
    call that returned.  So after [n] such passes the transcript is [n]
    records longer. *)
Theorem transcript_atomic self m st :
  match Agent.body format self m st with
  | (Raise _, st') | (Ok (Agent.Return _), st') =>
      Agent.previous_responses st' = Agent.previous_responses st
  | (Ok Agent.Continue, st') =>
      ∃ record tool tool_input tool_result,
        Agent.previous_responses st' = Agent.previous_responses st ++ [record]
        ∧ last (Agent.trace st') = Some (Invoke tool tool_input (Ok tool_result))
  end
  ∧ ∀ n st_n,
      iterate format n self m st = Some st_n →
      length (Agent.previous_responses st_n)
      = length (Agent.previous_responses st) + n.
Proof.
  split; [|intros n st_n; apply iterate_transcript].
  destruct (Agent.body format self m st) as [r st'] eqn:Hb.
  apply body_inv in Hb. destruct Hb; cbn [Agent.previous_responses Agent.trace]; try done.
  do 4 eexists. split; [done|]. by rewrite app_assoc, last_snoc.
Qed.

End loop_facts.

Section run_facts.
Context {Ext : Type} (format : str → str → Res str).
Implicit Types (self : Agent.t Ext) (st : Agent.State Ext)
  (m : gmap (list N) (Tool.t Ext)).

Lemma iterate_tool_calls self m (Inv : World.t Ext → Prop) :
  (∀ w v, Inv w → ∃ p, format (World.prompt w) v = Ok p) →
  (∀ w p, Inv w → ∃ output w1 tool tool_input t tool_result w2,
      LLM.generate (Agent.llm self) w p (Agent.stop_pattern self) = (Ok output, w1)
      ∧ Agent._get_tool_and_input output = Ok (tool, tool_input)
      ∧ tool ≠ lit "Final Answer"
      ∧ m !! tool = Some t
      ∧ Tool.run t w1 tool_input = (Ok tool_result, w2)
      ∧ Inv w2) →
  ∀ n st,
    Inv (Agent.world st) →
    (Agent.num_loops st + Z.of_nat n ≤ Agent.max_loops self)%Z →
    ∃ st', iterate format n self m st = Some st' ∧ Inv (Agent.world st').
Proof.
  intros Hfmt Hllm. induction n as [|n IH]; intros st Hinv Hle.
  - by exists st.
  - cbn [iterate].
    destruct (Z.ltb_spec (Agent.num_loops st) (Agent.max_loops self)); [|lia].
    destruct (Hfmt (Agent.world st) (Py.join [nl] (Agent.previous_responses st)) Hinv)
      as [p Hp].
    destruct (Hllm (Agent.world st) p Hinv)
      as (output & w1 & tool & tool_input & t & tool_result & w2
          & Hg & Hparse & Hne & Hm & Hr & Hinv2).
    rewrite (course_body format self m st _ _
               (observes format self m st p output tool tool_input w1 t tool_result w2
                  Hp Hg Hparse Hne Hm Hr)).
    apply IH; cbn [Agent.world Agent.num_loops]; [done|lia].
Qed.

(** C3.  With a budget that is not negative, [run] ends for every model
    and every tool as soon as the fuel exceeds the budget, with the
    counter within the budget and at most that many calls to the model,
    and no number of passes above the budget is ever reached.  When every
    output of the model parses to a call of a registered tool that
    returns, [run] ends after exactly [max_loops] passes and as many
    calls to the model. *)
Theorem always_tool_call_uses_the_budget self question w0 :
  (0 ≤ Agent.max_loops self)%Z →
  (∀ fuel, Z.to_nat (Agent.max_loops self) < fuel →
     ∃ res st,
       Agent.run format fuel self question w0 = Some (res, st)
       ∧ (Agent.num_loops st ≤ Agent.max_loops self)%Z
       ∧ llm_calls (Agent.trace st) ≤ Z.to_nat (Agent.max_loops self))
  ∧ (∀ k st_k,
       iterate format k self (Agent.tool_by_names self) (Agent.initial w0)
       = Some st_k →
       k ≤ Z.to_nat (Agent.max_loops self)
       ∧ Agent.num_loops st_k = Z.of_nat k
       ∧ llm_calls (Agent.trace st_k) = k)
  ∧ ∀ Inv : World.t Ext → Prop,
      Inv w0 →
      (∀ w v, Inv w → ∃ p, format (World.prompt w) v = Ok p) →
      (∀ w p, Inv w → ∃ output w1 tool tool_input t tool_result w2,
          LLM.generate (Agent.llm self) w p (Agent.stop_pattern self)
          = (Ok output, w1)
          ∧ Agent._get_tool_and_input output = Ok (tool, tool_input)
          ∧ tool ≠ lit "Final Answer"
          ∧ Agent.tool_by_names self !! tool = Some t
          ∧ Tool.run t w1 tool_input = (Ok tool_result, w2)
          ∧ Inv w2) →
      ∃ st,
        (∀ fuel, Z.to_nat (Agent.max_loops self) < fuel →
                 Agent.run format fuel self question w0 = Some (Ok None, st))
        ∧ iterate format (Z.to_nat (Agent.max_loops self)) self
                  (Agent.tool_by_names self) (Agent.initial w0) = Some st
        ∧ Agent.num_loops st = Agent.max_loops self
        ∧ llm_calls (Agent.trace st) = Z.to_nat (Agent.max_loops self)
        ∧ length (Agent.previous_responses st) = Z.to_nat (Agent.max_loops self).
Proof.
  intros Hbudget. split_and!.
  { intros fuel Hfuel.
    destruct (loop_terminates format fuel self (Agent.tool_by_names self)
                (Agent.initial w0)) as (res & st & Hloop & Hn & Hc);
      [cbn; lia|cbn; lia|].
    cbn [Agent.initial Agent.num_loops Agent.trace] in Hc.
    exists res, st. split_and!; [done|done|]. cbn in Hc. lia. }
  { intros k st_k Hk.
    pose proof (iterate_counts format _ _ _ _ _ Hk) as (Hn' & Hc' & Hle).
    cbn [Agent.initial Agent.num_loops Agent.trace] in Hn', Hc'.
    split_and!; [|lia|done].
    destruct k; [lia|]. specialize (Hle ltac:(lia)). lia. }
  intros Inv Hinv Hfmt Hllm.
  destruct (iterate_tool_calls self (Agent.tool_by_names self) Inv Hfmt Hllm
              (Z.to_nat (Agent.max_loops self)) (Agent.initial w0))
    as (st & Hit & _); [done|cbn; lia|].
  pose proof (iterate_counts format _ _ _ _ _ Hit) as (Hn & Hc & _).
  pose proof (iterate_transcript format _ _ _ _ _ Hit) as Hlen.
  cbn [Agent.initial Agent.num_loops Agent.trace Agent.previous_responses length]
    in Hn, Hc, Hlen.
  exists st. split_and!; [|done|lia|done|done].
  intros fuel Hfuel. apply loop_fell_through.
  exists (Z.to_nat (Agent.max_loops self)). split_and!; [done|done|lia].
Qed.

(** C4.  With no tools, a first output that parses to a tool call makes
    [run] raise the KeyError that carries the tool name, after one call
    to the model and none to a tool. *)
Theorem empty_registry_raises_KeyError
        self question w p output w1 tool tool_input fuel :
  Agent.tools self = [] →
  (0 < Agent.max_loops self)%Z →
  format (World.prompt w) [] = Ok p →
  LLM.generate (Agent.llm self) w p (Agent.stop_pattern self) = (Ok output, w1) →
  Agent._get_tool_and_input output = Ok (tool, tool_input) →
  tool ≠ lit "Final Answer" →
  Agent.run format (S fuel) self question w
  = Some (Raise (KeyError tool),
          Agent.mkState [] 1 w1 [Generate p (Agent.stop_pattern self) (Ok output)]).
Proof.
  intros Htools Hbudget Hf Hg Hp Hne.
  unfold Agent.run, Agent.tool_by_names. rewrite Htools.
  cbn [foldl Agent.loop Agent.initial Agent.num_loops].
  destruct (Z.ltb_spec 0 (Agent.max_loops self)); [|lia].
  by rewrite (course_body format self ∅ _ _ _
               (tool_missing format self ∅ (Agent.mkState [] 0 w [])
                  p output tool tool_input w1 Hf Hg Hp Hne (lookup_empty _))).
Qed.

(** C9.  An output without the final-answer marker whose tool name,
    found by the action pattern, is "Final Answer" ends the run at once
    with the tool input as the result; no tool is called. *)
Theorem final_answer_name_is_sentinel self m st p output w1 tool_input fuel :
  ¬ occurs FINAL_ANSWER_TOKEN output →
  Agent._get_tool_and_input output = Ok (lit "Final Answer", tool_input) →
  (Agent.num_loops st < Agent.max_loops self)%Z →
  format (World.prompt (Agent.world st))
         (Py.join [nl] (Agent.previous_responses st)) = Ok p →
  LLM.generate (Agent.llm self) (Agent.world st) p (Agent.stop_pattern self)
  = (Ok output, w1) →
  action_grammar output
  ∧ Agent.loop format (S fuel) self m st
    = Some (Ok (Some tool_input),
            Agent.mkState (Agent.previous_responses st) (Agent.num_loops st + 1) w1
              (Agent.trace st
               ++ [Generate p (Agent.stop_pattern self) (Ok output)])).
Proof.
  intros Hnot Hp Hlt Hf Hg. split.
  - destruct (action_branch _ _ _ Hnot Hp) as (groups & Hs & _).
    by eapply action_regex_sound.
  - cbn [Agent.loop].
    destruct (Z.ltb_spec (Agent.num_loops st) (Agent.max_loops self)); [|lia].
    by rewrite (course_body format self m st _ _
                 (answers format self m st p output tool_input w1 Hf Hg Hp)).
Qed.

Lemma body_ignores_prompt_field self m st p' :
  Agent.body format
    (Agent.mk (Agent.llm self) p' (Agent.tools self) (Agent.max_loops self)
              (Agent.stop_pattern self)) m st
  = Agent.body format self m st.
Proof. reflexivity. Qed.

(** C8.  The field [prompt] of the agent is never read: replacing it
    changes nothing in a run, whose template is the module-level variable
    of the world. *)
Theorem run_ignores_prompt_field self p' fuel question w :
  Agent.run format fuel
    (Agent.mk (Agent.llm self) p' (Agent.tools self) (Agent.max_loops self)
              (Agent.stop_pattern self)) question w
  = Agent.run format fuel self question w.
Proof.
  unfold Agent.run, Agent.tool_by_names. cbn [Agent.tools].
  generalize (foldl (λ m tool, <[Tool.name tool:=tool]> m) ∅ (Agent.tools self)).
  intros m. generalize (Agent.initial w). 
  induction fuel as [|fuel IH]; intros st; [done|].
  cbn [Agent.loop Agent.max_loops]. rewrite body_ignores_prompt_field.
  destruct (_ <? _)%Z; [|done].
  destruct (Agent.body format self m st) as [[[|v]|e] st1]; try done.
Qed.
End run_facts.

(** ** The properties at concrete inputs *)

Example split_cases :
  Py.split (lit "aXXbXXc") (lit "XX") = Some [lit "a"; lit "b"; lit "c"]
  ∧ Py.split (lit "XXX") (lit "XX") = Some [[]; lit "X"]
  ∧ Py.split (lit "aXX") (lit "XX") = Some [lit "a"; []]
  ∧ Py.split [] (lit "XX") = Some [[]]
  ∧ Py.split (lit "abc") [] = None.
Proof. vm_compute. auto 6. Qed.

Example strip_cases :
  Py.strip ([nl; 9%N] ++ lit " a b " ++ [13%N; 160%N]) = lit "a b"
  ∧ Py.strip_chars (lit "  ''x'' ") (lit " ") = lit "''x''"
  ∧ Py.join (lit ", ") [lit "a"; lit "b"; lit "c"] = lit "a, b, c".
Proof. vm_compute. auto. Qed.

(** The lazy group stops at the first "Action Input:", the greedy one
    runs to the end of the text, newlines included. *)
Example search_groups :
  Re.search action_regex
    (lit "Thought: go" ++ [nl] ++ lit "Action: A" ++ [nl; nl]
     ++ lit "Action Input:  b" ++ [nl] ++ lit "Action Input: c")
  = Some [lit "A"; lit "b" ++ [nl] ++ lit "Action Input: c"].
Proof. vm_compute. reflexivity. Qed.

Example parse_bracketed_action :
  Agent._get_tool_and_input
    (lit "Action: [Search]" ++ [nl] ++ lit "Action Input: " ++ [dquote]
     ++ lit "hello" ++ [dquote])
  = Ok (lit "Search", lit "hello").
Proof. vm_compute. reflexivity. Qed.

Example parse_unparsable :
  Agent._get_tool_and_input (lit "I do not know")
  = Raise (not_parsable (lit "I do not know")).
Proof. vm_compute. reflexivity. Qed.

Example parse_inner_space_kept :
  Agent._get_tool_and_input
    (lit "Action: Search" ++ [nl] ++ lit "Action Input: " ++ [dquote]
     ++ lit " hello" ++ [dquote])
  = Ok (lit "Search", lit " hello").
Proof. vm_compute. reflexivity. Qed.

(** The text "Final Answer: X", a newline, "Final Answer: Y" parses to
    the answer "Y". *)
Lemma final_answer_last_occurrence_witness :
  let generated := lit "Final Answer: X" ++ [nl] ++ lit "Final Answer: Y" in
  occurs FINAL_ANSWER_TOKEN generated
  ∧ ∃ pre post,
      last_occurrence FINAL_ANSWER_TOKEN generated pre post
      ∧ trimmed_of is_space post (lit "Y")
      ∧ Agent._get_tool_and_input generated = Ok (lit "Final Answer", lit "Y").
Proof.
  intros generated.
  assert (occurs FINAL_ANSWER_TOKEN generated) as Hocc.
  { exists [], (lit " X" ++ [nl] ++ lit "Final Answer: Y"). reflexivity. }
  split; [exact Hocc|].
  destruct (final_answer_last_occurrence generated Hocc)
    as (pre & post & text & Hlast & Htext & Htrim & Hparse).
  assert (text = lit "Y") as ->.
  { assert (Agent._get_tool_and_input generated = Ok (lit "Final Answer", lit "Y"))
      as Hrun by (vm_compute; reflexivity).
    congruence. }
  exists pre, post. auto.
Defined.

(** The name keeps its closing bracket when a space stands between the
    bracket and the end of the line. *)
Lemma trailing_bracket_is_kept :
  let generated := lit "Action: [Search] " ++ [nl] ++ lit "Action Input: x" in
  Py.contains FINAL_ANSWER_TOKEN generated = false
  ∧ Agent._get_tool_and_input generated = Ok (lit "Search]", lit "x")
  ∧ last (lit "Search]") = Some rbracket.
Proof. vm_compute. auto. Qed.

(** The cut of the bracketed example, and a cut that would keep the
    closing bracket in the name and is none. *)
Lemma bracketed_action_cut :
  let generated := lit "Action: [Search]" ++ [nl] ++ lit "Action Input: "
                       ++ [dquote] ++ lit "hello" ++ [dquote] in
  first_action generated [] [lbracket] (lit "Search") [rbracket] [nl] (lit " ")
               ([dquote] ++ lit "hello" ++ [dquote]).
Proof.
  intros generated. unfold first_action. split_and!.
  - split; [reflexivity|]. intros. simpl. lia.
  - split; [reflexivity|]. intros pre' post' Heq.
    do 9 (destruct pre' as [|? pre']; [by vm_compute in Heq|]). simpl. lia.
  - by right.
  - by right.
  - by repeat constructor.
  - by repeat constructor.
  - intros c [= <-]. by vm_compute.
Qed.

Lemma closing_bracket_is_left_out :
  let generated := lit "Action: [Search]" ++ [nl] ++ lit "Action Input: "
                       ++ [dquote] ++ lit "hello" ++ [dquote] in
  ¬ first_action generated [] [lbracket] (lit "Search]" ++ [nl]) [] [] (lit " ")
                 ([dquote] ++ lit "hello" ++ [dquote]).
Proof. intros generated (_ & _ & _ & [(_ & _ & H)|H] & _); [by apply H|done]. Qed.

Lemma action_branch_trimming_witness :
  let generated := lit "Action: [Search]" ++ [nl] ++ lit "Action Input: "
                       ++ [dquote] ++ lit "hello" ++ [dquote] in
  ¬ occurs FINAL_ANSWER_TOKEN generated
  ∧ Agent._get_tool_and_input generated = Ok (lit "Search", lit "hello")
  ∧ (∃ pre ob g1 cb nls ws g2 mid,
       first_action generated pre ob g1 cb nls ws g2
       ∧ trimmed_of is_space g1 (lit "Search")
       ∧ trimmed_of (λ c, c = 32%N) g2 mid
       ∧ trimmed_of (λ c, c = dquote) mid (lit "hello"))
  ∧ lit "Search" = Py.strip (lit "Search")
  ∧ lit "hello"
    = Py.strip_chars
        (Py.strip_chars ([dquote] ++ lit "hello" ++ [dquote]) (lit " ")) [dquote].
Proof.
  intros generated.
  assert (¬ occurs FINAL_ANSWER_TOKEN generated) as Hnot.
  { apply contains_false. vm_compute. reflexivity. }
  assert (Agent._get_tool_and_input generated = Ok (lit "Search", lit "hello"))
    as Hparse by (vm_compute; reflexivity).
  destruct (action_branch_trimming generated _ _ Hnot Hparse) as [Hcut Hall].
  destruct (Hall _ _ _ _ _ _ _ bracketed_action_cut) as [Hname Hinput].
  split_and!; [exact Hnot|exact Hparse|exact Hcut|exact Hname|exact Hinput].
Defined.

(** The action branch gives the "Final Answer" pair as well: a text
    without the marker whose first action is named "Final Answer" is
    parsed to the pair that a text with the marker gives, and the loop
    returns its input as the answer without calling the tool of that
    name. *)
Lemma action_branch_gives_the_final_answer_pair :
  let generated := lit "Action: Final Answer" ++ [nl] ++ lit "Action Input: 42" in
  let tool := Tool.mk (lit "Final Answer") (lit "Never called.")
                      (λ (w : World.t nat) _, (Ok (lit "called"), w)) in
  ¬ occurs FINAL_ANSWER_TOKEN generated
  ∧ action_grammar generated
  ∧ Agent._get_tool_and_input generated = Ok (lit "Final Answer", lit "42")
  ∧ Agent._get_tool_and_input (lit "Final Answer: 42")
    = Ok (lit "Final Answer", lit "42")
  ∧ ∃ p,
      Agent.run Demo.format 4 (Demo.agent (Demo.says generated) [tool] 3)
                (lit "Who are the director nominees?") Demo.world
      = Some (Ok (Some (lit "42")),
              Agent.mkState [] 1 Demo.world [Generate p Demo.stop (Ok generated)]).
Proof.
  intros generated tool. split_and!.
  - apply contains_false. vm_compute. reflexivity.
  - apply (action_regex_sound _ [lit "Final Answer"; lit "42"]).
    vm_compute. reflexivity.
  - vm_compute. reflexivity.
  - vm_compute. reflexivity.
  - eexists. vm_compute. reflexivity.
Qed.

Lemma demo_format_template v :
  Demo.format Demo.template v
  = Ok (lit "Question: Who are the director nominees?" ++ [nl]
        ++ lit "Thought: " ++ v ++ [nl]).
Proof. reflexivity. Qed.

Lemma always_tool_call_uses_the_budget_witness :
  let self := Demo.agent (Demo.says Demo.tool_call) [Demo.proxy_statement] 3 in
  ∃ st,
    Agent.run Demo.format 4 self (lit "Who are the director nominees?") Demo.world
    = Some (Ok None, st)
    ∧ Agent.num_loops st = 3%Z
    ∧ llm_calls (Agent.trace st) = 3.
Proof.
  intros self.
  destruct (always_tool_call_uses_the_budget Demo.format self
              (lit "Who are the director nominees?") Demo.world)
    as (_ & _ & Hexact); [vm_compute; discriminate|].
  destruct (Hexact (λ w, World.prompt w = Demo.template))
    as (st & Hrun & _ & Hn & Hcalls & _).
  - reflexivity.
  - intros w v ->. rewrite demo_format_template. eauto.
  - intros w p Hw.
    exists Demo.tool_call, w, (lit "Proxy Statement"), (lit "director nominees"),
      Demo.proxy_statement, (lit "Ann Lee and Bo Chen"), w.
    split_and!; [reflexivity|vm_compute; reflexivity|vm_compute; discriminate
                |vm_compute; reflexivity|reflexivity|exact Hw].
  - exists st. split_and!; [apply Hrun; cbn; lia|exact Hn|exact Hcalls].
Defined.

Lemma empty_registry_raises_KeyError_witness :
  ∃ p,
    Agent.run Demo.format 1 (Demo.agent (Demo.says Demo.tool_call) [] 3)
              (lit "Who are the director nominees?") Demo.world
    = Some (Raise (KeyError (lit "Proxy Statement")),
            Agent.mkState [] 1 Demo.world
                          [Generate p Demo.stop (Ok Demo.tool_call)]).
Proof.
  eexists.
  apply (empty_registry_raises_KeyError Demo.format
           (Demo.agent (Demo.says Demo.tool_call) [] 3)
           (lit "Who are the director nominees?") Demo.world _ Demo.tool_call
           Demo.world (lit "Proxy Statement") (lit "director nominees") 0).
  - reflexivity.
  - reflexivity.
  - apply demo_format_template.
  - reflexivity.
  - vm_compute. reflexivity.
  - vm_compute. discriminate.
Defined.

Lemma final_answer_name_is_sentinel_witness :
  let self := Demo.agent (Demo.says Demo.sentinel_call) [Demo.proxy_statement] 3 in
  ∃ p,
    Agent.loop Demo.format 1 self (Agent.tool_by_names self)
               (Agent.initial Demo.world)
    = Some (Ok (Some (lit "42")),
            Agent.mkState [] 1 Demo.world
                          [Generate p Demo.stop (Ok Demo.sentinel_call)]).
Proof.
  intros self. eexists.
  apply (final_answer_name_is_sentinel Demo.format self (Agent.tool_by_names self)
           (Agent.initial Demo.world) _ Demo.sentinel_call Demo.world (lit "42") 0).
  - apply contains_false. vm_compute. reflexivity.
  - vm_compute. reflexivity.
  - reflexivity.
  - apply demo_format_template.
  - reflexivity.
Defined.


(** The scenario of the notebook: one call of the tool, then the answer;
    the model is called twice. *)
Example one_tool_call_then_answer :
  ∃ st,
    Agent.run Demo.format 21
      (Demo.agent Demo.scripted [Demo.proxy_statement] Agent.default_max_loops)
      (lit "Who are the director nominees?") Demo.world
    = Some (Ok (Some (lit "Ann Lee and Bo Chen")), st)
    ∧ llm_calls (Agent.trace st) = 2
    ∧ Agent.num_loops st = 2%Z.
Proof. eexists. vm_compute. auto. Qed.

(** The agent is built with one template while the module-level variable
    holds another: the model is sent the second. *)
Example template_comes_from_the_module_variable :
  let self := Agent.mk (Demo.says Demo.final_answer) (lit "A {previous_responses}")
                       [] 3 Demo.stop in
  ∃ w,
    Agent.run Demo.format 1 self (lit "q")
              (World.mk (lit "B {previous_responses}") 0)
    = Some (Ok (Some (lit "Ann Lee and Bo Chen")),
            Agent.mkState [] 1 w
                          [Generate (lit "B ") Demo.stop (Ok Demo.final_answer)]).
Proof. eexists. vm_compute. reflexivity. Qed.

(** A run with a budget that is spent ends with [None]. *)
Example spent_budget_gives_None :
  ∃ st,
    Agent.run Demo.format 3
      (Demo.agent (Demo.says Demo.tool_call) [Demo.proxy_statement] 2)
      (lit "Who are the director nominees?") Demo.world
    = Some (Ok None, st)
    ∧ length (Agent.previous_responses st) = 2.
Proof. eexists. vm_compute. auto. Qed.

(** An output that does not parse ends the run with the ValueError, the
    transcript still empty. *)
Example unparsable_output_ends_the_run :
  ∃ p,
    Agent.run Demo.format 4
      (Demo.agent (Demo.says (lit "I do not know")) [Demo.proxy_statement] 3)
      (lit "Who are the director nominees?") Demo.world
    = Some (Raise (not_parsable (lit "I do not know")),
            Agent.mkState [] 1 Demo.world
                          [Generate p Demo.stop (Ok (lit "I do not know"))]).
Proof. eexists. vm_compute. reflexivity. Qed.

(** * More properties *)

(** ** The registry *)

Section registry.
Context {Ext : Type}.
Implicit Types (self : Agent.t Ext) (tool : Tool.t Ext).

Lemma foldl_registry_snoc (l : list (Tool.t Ext)) tool :
  foldl (λ m t, <[Tool.name t := t]> m) (∅ : gmap (list N) (Tool.t Ext)) (l ++ [tool])
  = <[Tool.name tool := tool]> (foldl (λ m t, <[Tool.name t := t]> m) ∅ l).
Proof. by rewrite foldl_app. Qed.

Lemma tool_by_names_lookup self (name : str) :
  Agent.tool_by_names self !! name
  = last (filter (λ tool, Tool.name tool = name) (Agent.tools self)).
Proof.
  unfold Agent.tool_by_names.
  induction (Agent.tools self) as [|tool l IH] using rev_ind; [done|].
  rewrite foldl_registry_snoc, filter_app, lookup_insert.
  destruct (decide (Tool.name tool = name)) as [Heq|Hne].
  - rewrite filter_cons_True, filter_nil by done. by rewrite last_snoc.
  - rewrite filter_cons_False, filter_nil by done. by rewrite app_nil_r.
Qed.

(** X1.  The registry maps a name to the last tool of that name in the
    list of tools, and to nothing when no tool has the name: a later tool
    shadows an earlier one of the same name. *)
Theorem tool_by_names_last_wins self (name : str) :
  Agent.tool_by_names self !! name
  = last (filter (λ tool, Tool.name tool = name) (Agent.tools self)).
Proof. apply tool_by_names_lookup. Qed.
End registry.

(** ** The parser on the format the prompt asks for *)

(** A token whose first character does not recur in it cannot start
    inside itself: if it occurs in [tok ++ a] past the start, it occurs
    in [a]. *)
Lemma no_self_overlap (c0 : N) (t a k post : list N) :
  c0 ∉ t → (c0 :: t) ++ a = k ++ (c0 :: t) ++ post →
  k = [] ∨ occurs (c0 :: t) a.
Proof.
  intros Hc0 Heq. destruct k as [|c k]; [by left|right].
  apply app_eq_inv in Heq as [(k' & Htok & Ha)|(k' & Hk & Ha)].
  - destruct k' as [|c' k'].
    + rewrite app_nil_r in Htok. exists [], post. by rewrite Ha.
    + simpl in Ha. injection Ha as -> Ha. exfalso. apply Hc0.
      simpl in Htok. injection Htok as _ ->. set_solver.
  - exists k', post. done.
Qed.

(** Nor can it start inside a text in which it does not occur and run
    over into a copy of itself that follows. *)
Lemma no_early_start (c0 : N) (t pre1 x1 rest : list N) :
  c0 ∉ t → ¬ occurs (c0 :: t) (pre1 ++ x1) → x1 ≠ [] →
  Py.startswith (x1 ++ (c0 :: t) ++ rest) (c0 :: t) = false.
Proof.
  intros Hc0 Hnot Hx1. destruct (Py.startswith _ _) eqn:E; [|done]. exfalso.
  apply startswith_iff in E as [z Hz].
  apply app_eq_inv in Hz as [(k & Hx & Hr)|(k & Htok & Hr)].
  - apply Hnot. exists pre1, k. by rewrite Hx.
  - destruct k as [|c k].
    + rewrite app_nil_r in Htok. apply Hnot. exists pre1, []. by rewrite Htok, app_nil_r.
    + simpl in Hr. injection Hr as -> Hr.
      destruct x1 as [|a x1]; [done|]. simpl in Htok. injection Htok as _ ->.
      apply Hc0. set_solver.
Qed.

Lemma strip_space_prefix ws s :
  Forall is_space ws → Py.strip (ws ++ s) = Py.strip s.
Proof.
  intros Hws. unfold Py.strip, Py.strip_by. f_equal.
  induction Hws as [|c ws Hc _ IH]; [done|]. simpl. by rewrite Hc.
Qed.

Lemma occurs_cons_ne (c0 c : N) (t a : list N) :
  occurs (c0 :: t) (c :: a) → c ≠ c0 → occurs (c0 :: t) a.
Proof.
  intros ([|c' pre] & post & Heq) Hne; simpl in Heq.
  - by injection Heq as -> _.
  - injection Heq as _ ->. by exists pre, post.
Qed.

Lemma final_round_trip thought answer :
  ¬ occurs FINAL_ANSWER_TOKEN answer →
  Py.strip answer = answer →
  Agent._get_tool_and_input (thought ++ FINAL_ANSWER_TOKEN ++ lit " " ++ answer)
  = Ok (lit "Final Answer", answer).
Proof.
  intros Hnot Hstrip.
  destruct (final_branch (thought ++ FINAL_ANSWER_TOKEN ++ lit " " ++ answer))
    as (pre & post & [Heq Hmax] & ->); [by eexists _, _|].
  enough (post = lit " " ++ answer) as ->.
  { change (lit " ") with [32%N].
    rewrite (strip_space_prefix [32%N] answer); [by rewrite Hstrip|].
    by repeat constructor. }
  pose proof (Hmax thought _ eq_refl) as Hlen.
  apply app_eq_inv in Heq as [(k & Hth & Hr)|(k & Hpre & Hr)].
  - destruct k as [|c k].
    + rewrite app_nil_l in Hr. by apply app_inv_head in Hr.
    + rewrite Hth, length_app in Hlen. simpl in Hlen. lia.
  - destruct final_token_shape as (t & Htok & Ht). rewrite Htok in Hr, Hnot.
    destruct (no_self_overlap _ _ _ _ _ Ht Hr) as [-> |Hocc].
    + rewrite app_nil_l in Hr. by apply app_inv_head in Hr.
    + destruct Hnot. by apply (occurs_cons_ne _ 32%N).
Qed.

(** X2.  Round trip of the final-answer format: an output that ends with
    the marker, one space and an answer is parsed back to that answer,
    whatever comes before, when the answer has no marker in it and no
    whitespace at its ends. *)
Theorem final_answer_round_trip thought answer :
  ¬ occurs FINAL_ANSWER_TOKEN answer →
  Py.strip answer = answer →
  Agent._get_tool_and_input (thought ++ FINAL_ANSWER_TOKEN ++ lit " " ++ answer)
  = Ok (lit "Final Answer", answer).
Proof. apply final_round_trip. Qed.

Lemma lstrip_by_fixed p (t : list N) :
  (∀ c, head t = Some c → p c = false) → Py.lstrip_by p t = t.
Proof. destruct t as [|c t]; [done|]. intros H. simpl. by rewrite (H c). Qed.

Lemma strip_by_fixed p (t : list N) :
  (∀ c, head t = Some c → p c = false) →
  (∀ c, last t = Some c → p c = false) →
  Py.strip_by p t = t.
Proof.
  intros Hh Hl. unfold Py.strip_by, Py.rstrip_by.
  rewrite (lstrip_by_fixed p t Hh), lstrip_by_fixed.
  - apply reverse_involutive.
  - intros c. rewrite head_reverse. apply Hl.
Qed.

Lemma strip_idempotent s : Py.strip (Py.strip s) = Py.strip s.
Proof.
  destruct (strip_spec s) as (l & r & _ & _ & _ & Hh & Hl).
  apply strip_by_fixed; intros c Hc.
  - specialize (Hh c Hc). unfold is_space in Hh. by destruct (Py.isspace c).
  - specialize (Hl c Hc). unfold is_space in Hl. by destruct (Py.isspace c).
Qed.

(** X3.  An answer the parser returns has no final-answer marker in it and
    no whitespace at its ends, and writing it after the marker parses back
    to the same answer. *)
Theorem final_answer_is_clean generated answer :
  occurs FINAL_ANSWER_TOKEN generated →
  Agent._get_tool_and_input generated = Ok (lit "Final Answer", answer) →
  ¬ occurs FINAL_ANSWER_TOKEN answer
  ∧ Py.strip answer = answer
  ∧ Agent._get_tool_and_input (FINAL_ANSWER_TOKEN ++ lit " " ++ answer)
    = Ok (lit "Final Answer", answer).
Proof.
  intros Hocc Hparse.
  destruct (final_branch generated Hocc) as (pre & post & [Heq Hmax] & Hp).
  rewrite Hp in Hparse. injection Hparse as <-.
  assert (¬ occurs FINAL_ANSWER_TOKEN (Py.strip post)) as Hnot.
  { intros (u & v & Hs).
    destruct (strip_spec post) as (l & r & Hpost & _).
    rewrite Hs in Hpost. rewrite Hpost in Heq.
    specialize (Hmax (pre ++ FINAL_ANSWER_TOKEN ++ l ++ u) (v ++ r)).
    rewrite !length_app in Hmax.
    assert (0 < length FINAL_ANSWER_TOKEN) by (vm_compute; lia).
    enough (length pre + (length FINAL_ANSWER_TOKEN + (length l + length u))
            ≤ length pre) by lia.
    apply Hmax. rewrite Heq. by rewrite <- !app_assoc. }
  split_and!; [done|apply strip_idempotent|].
  apply (final_round_trip []); [done|apply strip_idempotent].
Qed.

Lemma skip1_inside ch (g x : list N) c :
  last g = Some c → c ≠ ch →
  ∃ u g', g = u ++ g' ∧ last g' = Some c ∧ skip1 ch (g ++ x) = g' ++ x.
Proof.
  intros Hlast Hne. destruct g as [|a g]; [done|]. cbn [app skip1].
  destruct (N.eqb_spec ch a) as [<-|Ha].
  - destruct g as [|b g]; [simpl in Hlast; congruence|].
    exists [ch], (b :: g). done.
  - by exists [], (a :: g).
Qed.

Lemma lstrip_by_inside p (g x : list N) c :
  last g = Some c → p c = false →
  ∃ u g', g = u ++ g' ∧ last g' = Some c ∧ Py.lstrip_by p (g ++ x) = g' ++ x.
Proof.
  intros Hlast Hc. induction g as [|a g IH]; [done|]. cbn [app Py.lstrip_by].
  destruct (p a) eqn:Ha.
  - destruct g as [|b g]; [simpl in Hlast; congruence|].
    destruct IH as (u & g' & Hg & Hl & Heq); [done|].
    exists (a :: u), g'. split_and!; [by rewrite Hg|done|done].
  - by exists [], (a :: g).
Qed.

Lemma re_close_not_before (g2 rest : list N) c :
  last g2 = Some c → c ≠ rbracket → c ≠ nl →
  ¬ occurs (lit "Action Input:") g2 →
  Re.match_here re_close (g2 ++ [nl] ++ lit "Action Input:" ++ rest) = None.
Proof.
  intros Hlast Hrb Hnl Hnot. rewrite match_re_close, match_re_input.
  destruct (skip1_inside rbracket g2 ([nl] ++ lit "Action Input:" ++ rest) c)
    as (u1 & g' & -> & Hlast' & ->); [done..|].
  destruct (lstrip_by_inside (N.eqb nl) g' ([nl] ++ lit "Action Input:" ++ rest) c)
    as (u2 & g'' & -> & Hlast'' & ->); [done|by apply N.eqb_neq|].
  destruct (Py.startswith _ _) eqn:E; [exfalso|done].
  apply startswith_iff in E as [z Hz].
  destruct token_shape_input as (t & Htok & _ & Hnlt & _).
  apply app_eq_inv in Hz as [(k & Hg & Hr)|(k & Hai & Hr)].
  - apply Hnot. exists (u1 ++ u2), k. by rewrite Hg, <- !app_assoc.
  - destruct k as [|a k].
    + rewrite app_nil_r in Hai. apply Hnot. exists (u1 ++ u2), [].
      by rewrite Hai, app_nil_r, <- !app_assoc.
    + simpl in Hr. injection Hr as Ha Hr. subst a.
      destruct g'' as [|b g'']; [done|]. rewrite Htok in Hai.
      simpl in Hai. injection Hai as _ ->. apply Hnlt. set_solver.
Qed.

Lemma strip_fixed_last s c :
  Py.strip s = s → last s = Some c → Py.isspace c = false.
Proof.
  intros Hs Hc. destruct (strip_spec s) as (l & r & _ & _ & _ & _ & Hlast).
  rewrite Hs in Hlast. specialize (Hlast c Hc). unfold is_space in Hlast.
  by destruct (Py.isspace c).
Qed.

(** X4.  Round trip of the action format: an output that ends with
    "Action: ", a tool name, a newline, "Action Input: " and an input is
    parsed back to that name and input, when no final-answer marker occurs,
    no "Action: " comes before, the name has no "Action Input:" in it, no
    whitespace at its ends and no bracket at either end, and the input has
    no whitespace in front and no spaces or double quotes at its ends. *)
Theorem action_round_trip thought tool tool_input :
  ¬ occurs FINAL_ANSWER_TOKEN
      (thought ++ lit "Action: " ++ tool ++ [nl] ++ lit "Action Input: " ++ tool_input) →
  ¬ occurs (lit "Action: ") thought →
  ¬ occurs (lit "Action Input:") tool →
  Py.strip tool = tool →
  head tool ≠ Some lbracket →
  last tool ≠ Some rbracket →
  Py.lstrip_by Py.isspace tool_input = tool_input →
  Py.strip_chars (Py.strip_chars tool_input (lit " ")) [dquote] = tool_input →
  Agent._get_tool_and_input
    (thought ++ lit "Action: " ++ tool ++ [nl] ++ lit "Action Input: " ++ tool_input)
  = Ok (tool, tool_input).
Proof.
  intros Hfinal Hthought Hinput Hstrip Hhead Hlast Hlead Htrim.
  apply contains_false in Hfinal. unfold Agent._get_tool_and_input. rewrite Hfinal.
  set (x := [nl] ++ lit "Action Input:" ++ [32%N] ++ tool_input).
  change (lit "Action Input: " ++ tool_input)
    with (lit "Action Input:" ++ [32%N] ++ tool_input).
  fold x.
  assert (Re.match_here re_close x = Some [tool_input]) as Hx.
  { unfold x. rewrite match_re_close, skip1_id by (by intros [= ?]).
    rewrite (lstrip_by_app (N.eqb nl) [nl]);
      [|by repeat constructor|by intros c [= <-]].
    rewrite match_re_input, startswith_app.
    change 13 with (length (lit "Action Input:")). rewrite drop_app_length.
    assert (Py.lstrip_by Py.isspace ([32%N] ++ tool_input)
            = Py.lstrip_by Py.isspace tool_input) as -> by done.
    by rewrite Hlead. }
  assert (Re.match_here action_regex (lit "Action: " ++ tool ++ x)
          = Some [tool; tool_input]) as Hhere.
  { rewrite match_action_regex, startswith_app.
    change 8 with (length (lit "Action: ")). rewrite drop_app_length.
    rewrite skip1_id.
    - rewrite (any_lazy_first _ [] tool x [tool_input] Hx); [done|].
      intros g1 g2 -> Hg2.
      destruct (last g2) as [c|] eqn:Hc; [|by apply last_None in Hc].
      assert (last (g1 ++ g2) = Some c) as Hc' by by rewrite last_app_nonempty.
      apply (re_close_not_before g2 ([32%N] ++ tool_input) c); [done|congruence| |].
      + intros ->. by pose proof (strip_fixed_last _ _ Hstrip Hc').
      + intros (u & v & ->). apply Hinput. exists (g1 ++ u), v.
        by rewrite <- !app_assoc.
    - destruct tool; [done|]. done. }
  rewrite search_skip.
  - rewrite (search_here _ _ _ Hhere). cbv beta iota zeta.
    change (Re.group [tool; tool_input] 1) with tool.
    change (Re.group [tool; tool_input] 2) with tool_input.
    by rewrite Hstrip, Htrim.
  - intros pre1 x1 -> Hx1. apply match_action_None.
    destruct token_shape_action as (t & Htok & Ht). rewrite Htok in *.
    by apply (no_early_start _ _ pre1).
Qed.

(** X5.  Without a final-answer marker, a parsed action starts at the
    first "Action: " of the output, and the name ends at the first
    "Action Input:" after it: a second action in the same output ends up
    in the input of the first. *)
Theorem first_action_rule generated tool tool_input :
  ¬ occurs FINAL_ANSWER_TOKEN generated →
  Agent._get_tool_and_input generated = Ok (tool, tool_input) →
  ∃ pre ob g1 cb nls ws g2,
    first_occurrence (lit "Action: ") generated pre
      (ob ++ g1 ++ cb ++ nls ++ lit "Action Input:" ++ ws ++ g2)
    ∧ first_occurrence (lit "Action Input:")
        ((ob ++ g1 ++ cb ++ nls) ++ lit "Action Input:" ++ ws ++ g2)
        (ob ++ g1 ++ cb ++ nls) (ws ++ g2)
    ∧ (ob = [] ∨ ob = [lbracket])
    ∧ (cb = [] ∨ cb = [rbracket])
    ∧ Forall (λ c, c = nl) nls
    ∧ Forall is_space ws
    ∧ (∀ c, head g2 = Some c → ¬ is_space c)
    ∧ tool = Py.strip g1
    ∧ tool_input = Py.strip_chars (Py.strip_chars g2 (lit " ")) [dquote].
Proof.
  intros Hnot Hparse.
  destruct (action_branch _ _ _ Hnot Hparse) as (groups & Hsearch & -> & ->).
  apply search_first_action in Hsearch
    as (pre & ob & g1 & cb & nls & ws & g2 & Hfirst & ->).
  destruct Hfirst as (H1 & H2 & Hob & Hcb & Hnls & Hws & Hg2).
  exists pre, ob, g1, cb, nls, ws, g2. split_and!; try done.
  - destruct Hob as [[-> _]| ->]; auto.
  - destruct Hcb as [(-> & _)| ->]; auto.
Qed.

(** ** The prompt *)

Lemma emit_emit a b r : Fmt.emit a (Fmt.emit b r) = Fmt.emit (a ++ b) r.
Proof. destruct r as [[out|e]|]; simpl; [|done..]. by rewrite app_assoc. Qed.

Lemma emit_nil r : Fmt.emit [] r = r.
Proof. by destruct r as [[out|e]|]. Qed.

Lemma go_text_prefix kwargs l rest :
  brace_free l →
  Fmt.go kwargs Fmt.Text (l ++ rest) = Fmt.emit l (Fmt.go kwargs Fmt.Text rest).
Proof.
  intros Hl. induction Hl as [|c l [Hc1 Hc2] _ IH]; [by rewrite emit_nil|].
  cbn [app Fmt.go].
  destruct (N.eqb_spec c Fmt.lbrace); [done|].
  destruct (N.eqb_spec c Fmt.rbrace); [done|].
  by rewrite IH, emit_emit.
Qed.

Lemma name_char_not_rbrace c :
  Fmt.is_letter c || Fmt.is_digit c = true → (c =? Fmt.rbrace)%N = false.
Proof.
  unfold Fmt.is_letter, Fmt.is_digit, Fmt.rbrace. intros H.
  apply N.eqb_neq. intros ->. by vm_compute in H.
Qed.

Lemma go_field kwargs acc n rest :
  Forall (λ c, Fmt.is_letter c || Fmt.is_digit c = true) n →
  Fmt.go kwargs (Fmt.Field acc) (n ++ [Fmt.rbrace] ++ rest)
  = match kwargs !! (acc ++ n) with
    | Some v => Fmt.emit v (Fmt.go kwargs Fmt.Text rest)
    | None => Some (Raise (KeyError (acc ++ n)))
    end.
Proof.
  intros Hn. revert acc. induction Hn as [|c n Hc _ IH]; intros acc.
  - cbn [app Fmt.go]. rewrite N.eqb_refl. by rewrite app_nil_r.
  - cbn [app Fmt.go]. rewrite (name_char_not_rbrace c Hc), Hc, IH.
    by rewrite <- app_assoc.
Qed.

Lemma brace_free_app a b : brace_free (a ++ b) ↔ brace_free a ∧ brace_free b.
Proof. apply Forall_app. Qed.

Lemma brace_free_join sep l :
  brace_free sep → Forall brace_free l → brace_free (Py.join sep l).
Proof.
  intros Hsep Hl. induction Hl as [|x l Hx Hl IH]; [constructor|].
  destruct l as [|y l]; [done|].
  change (Py.join sep (x :: y :: l)) with (x ++ sep ++ Py.join sep (y :: l)).
  by rewrite !brace_free_app.
Qed.

Ltac brace_free_lit := apply (bool_decide_unpack _); by vm_compute.

Lemma brace_free_preamble td tn :
  brace_free td → brace_free tn → brace_free (preamble td tn).
Proof.
  intros Htd Htn. unfold preamble.
  repeat (apply brace_free_app; split); try done; brace_free_lit.
Qed.

Section tools.
Context {Ext : Type}.
Implicit Types (tools : list (Tool.t Ext)).

Lemma brace_free_tool_description tools :
  plain_tools tools → brace_free (tool_description tools).
Proof.
  intros H. apply brace_free_join; [brace_free_lit|].
  apply Forall_fmap. eapply Forall_impl; [done|]. intros tool [Hn Hd].
  unfold compose. rewrite !brace_free_app. split_and!; [done|brace_free_lit|done].
Qed.

Lemma brace_free_tool_names tools :
  plain_tools tools → brace_free (tool_names tools).
Proof.
  intros H. apply brace_free_join; [brace_free_lit|].
  apply Forall_fmap. eapply Forall_impl; [done|]. by intros tool [Hn Hd].
Qed.

Lemma build_prompt_fill tools question :
  build_prompt tools question
  = Some (Ok (fill (tool_description tools) (tool_names tools) question
                   (lit "{previous_responses}"))).
Proof. unfold fill, preamble. rewrite <- !app_assoc. reflexivity. Qed.

Lemma format_field_previous_responses kwargs rest :
  Fmt.go kwargs Fmt.Text (lit "{previous_responses}" ++ rest)
  = match kwargs !! lit "previous_responses" with
    | Some v => Fmt.emit v (Fmt.go kwargs Fmt.Text rest)
    | None => Some (Raise (KeyError (lit "previous_responses")))
    end.
Proof. reflexivity. Qed.

Lemma format_fill tools question v :
  plain_tools tools → brace_free question →
  Fmt.format (fill (tool_description tools) (tool_names tools) question
                   (lit "{previous_responses}"))
             {[lit "previous_responses" := v]}
  = Some (Ok (fill (tool_description tools) (tool_names tools) question v)).
Proof.
  intros Htools Hq.
  unfold Fmt.format, fill. rewrite !app_assoc.
  rewrite <- (app_assoc _ (lit "{previous_responses}")).
  rewrite go_text_prefix.
  - rewrite format_field_previous_responses, lookup_singleton_eq.
    change (Fmt.go _ Fmt.Text [nl]) with (Some (Ok [nl])).
    cbn [Fmt.emit]. by rewrite <- !app_assoc.
  - rewrite !brace_free_app. split_and!; try done; try brace_free_lit.
    apply brace_free_preamble;
      [by apply brace_free_tool_description|by apply brace_free_tool_names].
Qed.

(** X6.  The prompt is built in two stages.  With names, descriptions and
    question free of braces, the first formatting succeeds and leaves the
    field of the previous responses in place, and the second formatting,
    the one of [run], puts any text there literally: braces in the
    transcript are not read as fields. *)
Theorem prompt_two_stages tools question v :
  plain_tools tools → brace_free question →
  ∃ prompt,
    build_prompt tools question = Some (Ok prompt)
    ∧ Fmt.format prompt {[lit "previous_responses" := v]}
      = Some (Ok (fill (tool_description tools) (tool_names tools) question v)).
Proof.
  intros Htools Hq. eexists. split; [apply build_prompt_fill|].
  by apply format_fill.
Qed.
End tools.

(** ** The run as a dialogue *)

Section dialogue.
Context {Ext : Type} (format : str → str → Res str).
Implicit Types (self : Agent.t Ext) (st : Agent.State Ext)
  (m : gmap (list N) (Tool.t Ext)).

(** An invariant of the states at the head of the loop holds at the head
    of the last pass, which either finds the budget spent or ends the
    run. *)
Lemma loop_invariant (I : Agent.State Ext → Prop) fuel self m st0 res st :
  I st0 →
  (∀ s s', I s → (Agent.num_loops s < Agent.max_loops self)%Z →
           course format self m s (Ok Agent.Continue) s' → I s') →
  Agent.loop format fuel self m st0 = Some (res, st) →
  ∃ st1,
    I st1
    ∧ ((res = Ok None ∧ st = st1)
       ∨ ∃ r, course format self m st1 r st
              ∧ match r with
                | Ok Agent.Continue => False
                | Ok (Agent.Return v) => res = Ok (Some v)
                | Raise e => res = Raise e
                end).
Proof.
  intros H0 Hstep. revert st0 H0.
  induction fuel as [|fuel IH]; intros st0 H0; [done|]. cbn [Agent.loop].
  destruct (Z.ltb_spec (Agent.num_loops st0) (Agent.max_loops self)).
  - destruct (Agent.body format self m st0) as [r st'] eqn:Hb.
    apply body_inv in Hb. destruct r as [[|v]|e].
    + apply IH. by eapply Hstep.
    + intros [= <- <-]. exists st0. split; [done|]. right. by exists (Ok (Agent.Return v)).
    + intros [= <- <-]. exists st0. split; [done|]. right. by exists (Raise e).
  - intros [= <- <-]. exists st0. split; [done|]. by left.
Qed.

Lemma registered_name self (name : str) (t : Tool.t Ext) :
  Agent.tool_by_names self !! name = Some t →
  Tool.name t = name ∧ t ∈ Agent.tools self.
Proof.
  rewrite tool_by_names_lookup. intros H%last_Some_elem_of.
  apply list_elem_of_filter in H. done.
Qed.

(** What a pass that reaches the end of the body adds. *)
Lemma completed_pass self s s' :
  course format self (Agent.tool_by_names self) s (Ok Agent.Continue) s' →
  ∃ x w1 t,
    asked_for self x
    ∧ format (World.prompt (Agent.world s))
             (Py.join [nl] (Agent.previous_responses s)) = Ok (pass_prompt x)
    ∧ Agent.trace s' = Agent.trace s ++ pass_events x
    ∧ Agent.previous_responses s' = Agent.previous_responses s ++ [pass_record x]
    ∧ Agent.num_loops s' = (Agent.num_loops s + 1)%Z
    ∧ LLM.generate (Agent.llm self) (Agent.world s) (pass_prompt x)
                   (Agent.stop_pattern self) = (Ok (pass_output x), w1)
    ∧ t ∈ Agent.tools self
    ∧ Tool.run t w1 (pass_input x) = (Ok (pass_result x), Agent.world s').
Proof.
  intros Hc.
  inversion Hc as [| | | | | |p output tool tool_input w t tool_result w'
                             Hf Hg Hp Hne Hm Hr]; subst.
  destruct (registered_name _ _ _ Hm) as [Hname Hin].
  exists (mkPass p (Agent.stop_pattern self) output tool tool_input tool_result), w, t.
  unfold asked_for, pass_events, pass_record.
  cbn [pass_prompt pass_stop pass_output pass_tool pass_input pass_result
       Agent.trace Agent.previous_responses Agent.num_loops Agent.world].
  rewrite Hname. split_and!; try done.
Qed.

(** X7.  Every run that returns is a sequence of completed passes and an
    ending.  Each completed pass is one call of the model followed by one
    successful call of a registered tool that is not named "Final Answer",
    with the name and input parsed from the output; the transcript has one
    record for each of them, in order; the counter is the number of passes
    begun.  The ending is empty when the budget is spent, one call of the
    model when an answer is returned, and at most one call of the model and
    one failed call of a tool when an exception leaves the run. *)
Theorem run_is_a_dialogue fuel self question w res st :
  Agent.run format fuel self question w = Some (res, st) →
  ∃ passes ending,
    Agent.trace st = (passes ≫= pass_events) ++ ending
    ∧ Agent.previous_responses st = pass_record <$> passes
    ∧ Forall (asked_for self) passes
    ∧ match res with
      | Ok None =>
          ending = [] ∧ Agent.num_loops st = Z.of_nat (length passes)
      | Ok (Some v) =>
          Agent.num_loops st = Z.of_nat (length passes + 1)
          ∧ ∃ p output,
              ending = [Generate p (Agent.stop_pattern self) (Ok output)]
              ∧ Agent._get_tool_and_input output = Ok (lit "Final Answer", v)
      | Raise e =>
          Agent.num_loops st = Z.of_nat (length passes + 1)
          ∧ (ending = []
             ∨ (∃ p r, ending = [Generate p (Agent.stop_pattern self) r])
             ∨ ∃ p output tool tool_input,
                 ending = [Generate p (Agent.stop_pattern self) (Ok output);
                           Invoke tool tool_input (Raise e)]
                 ∧ Agent._get_tool_and_input output = Ok (tool, tool_input))
      end.
Proof.
  intros Hrun. unfold Agent.run in Hrun.
  apply (loop_invariant
           (λ s, ∃ passes,
              Agent.trace s = passes ≫= pass_events
              ∧ Agent.previous_responses s = pass_record <$> passes
              ∧ Forall (asked_for self) passes
              ∧ Agent.num_loops s = Z.of_nat (length passes))) in Hrun.
  - destruct Hrun as (st1 & (passes & Htr & Hprev & Hall & Hn) & Hend).
    exists passes.
    destruct Hend as [(-> & ->)|(r & Hc & Hres)].
    + exists []. rewrite app_nil_r. done.
    + destruct Hc; try done; subst res;
        cbn [Agent.trace Agent.previous_responses Agent.num_loops];
        rewrite Htr.
      * exists []. rewrite app_nil_r. split_and!; try done; [lia|by left].
      * eexists. split_and!; try done; [lia|]. right. left. eauto.
      * eexists. split_and!; try done; [lia|]. right. left. eauto.
      * eexists. split_and!; try done; [lia|]. eauto.
      * eexists. split_and!; try done; [lia|]. right. left. eauto.
      * eexists. split_and!; try done; [lia|]. right. right.
        match goal with H : Agent.tool_by_names _ !! _ = Some _ |- _ =>
          destruct (registered_name _ _ _ H) as [-> _] end.
        eauto 10.
  - exists []. done.
  - intros s s' (passes & Htr & Hprev & Hall & Hn) _ Hc.
    destruct (completed_pass _ _ _ Hc)
      as (x & w1 & t & Hx & _ & Htr' & Hprev' & Hn' & _).
    exists (passes ++ [x]). split_and!.
    + rewrite Htr', Htr, bind_app. f_equal.
    + by rewrite Hprev', Hprev, fmap_app.
    + apply Forall_app. split; [done|]. by constructor.
    + rewrite Hn', Hn, length_app. simpl. lia.
Qed.
End dialogue.

Lemma letter_not_brace c :
  Fmt.is_letter c = true → (c =? Fmt.lbrace)%N = false ∧ (c =? Fmt.rbrace)%N = false.
Proof.
  unfold Fmt.is_letter, Fmt.lbrace, Fmt.rbrace. intros H.
  split; apply N.eqb_neq; intros ->; by vm_compute in H.
Qed.

Lemma go_named_field kwargs c n rest :
  Fmt.is_letter c = true →
  Forall (λ c, Fmt.is_letter c || Fmt.is_digit c = true) n →
  Fmt.go kwargs Fmt.Text ([Fmt.lbrace] ++ (c :: n) ++ [Fmt.rbrace] ++ rest)
  = match kwargs !! (c :: n) with
    | Some v => Fmt.emit v (Fmt.go kwargs Fmt.Text rest)
    | None => Some (Raise (KeyError (c :: n)))
    end.
Proof.
  intros Hc Hn. destruct (letter_not_brace c Hc) as [Hl Hr].
  cbn [app Fmt.go]. rewrite N.eqb_refl, Hl, Hr, Hc.
  exact (go_field kwargs [c] n rest Hn).
Qed.

Lemma format_stray_closing_brace td tn a b kwargs :
  brace_free td → brace_free tn → brace_free a → head b ≠ Some Fmt.rbrace →
  Fmt.format (fill td tn (a ++ [Fmt.rbrace] ++ b) (lit "{previous_responses}")) kwargs
  = Some (Raise (ValueError (lit "Single '}' encountered in format string"))).
Proof.
  intros Htd Htn Ha Hb. unfold Fmt.format, fill.
  rewrite <- !app_assoc, (app_assoc (preamble td tn) a).
  rewrite go_text_prefix
    by (apply brace_free_app; split; [by apply brace_free_preamble|done]).
  cbn [app Fmt.go]. change (Fmt.rbrace =? Fmt.lbrace)%N with false.
  rewrite N.eqb_refl. cbv iota.
  destruct b as [|c b]; [done|]. cbn [app Fmt.go].
  destruct (N.eqb_spec c Fmt.rbrace) as [-> |_]; [done|done].
Qed.

Lemma format_unknown_field td tn a c n b v :
  brace_free td → brace_free tn → brace_free a →
  Fmt.is_letter c = true →
  Forall (λ c, Fmt.is_letter c || Fmt.is_digit c = true) n →
  c :: n ≠ lit "previous_responses" →
  Fmt.format (fill td tn (a ++ [Fmt.lbrace] ++ (c :: n) ++ [Fmt.rbrace] ++ b)
                   (lit "{previous_responses}"))
             {[lit "previous_responses" := v]}
  = Some (Raise (KeyError (c :: n))).
Proof.
  intros Htd Htn Ha Hc Hn Hne. unfold Fmt.format, fill.
  rewrite <- !app_assoc, (app_assoc (preamble td tn) a).
  rewrite go_text_prefix
    by (apply brace_free_app; split; [by apply brace_free_preamble|done]).
  rewrite go_named_field by done.
  by rewrite lookup_singleton_ne.
Qed.

Section notebook.
Context {Ext : Type} (format : str → str → Res str).
Implicit Types (self : Agent.t Ext) (st : Agent.State Ext).

Lemma first_pass_raises self question w e fuel :
  format (World.prompt w) [] = Raise e →
  (0 < Agent.max_loops self)%Z →
  Agent.run format (S fuel) self question w
  = Some (Raise e, Agent.mkState [] 1 w []).
Proof.
  intros Hf Hbudget. unfold Agent.run. cbn [Agent.loop Agent.initial Agent.num_loops].
  destruct (Z.ltb_spec 0 (Agent.max_loops self)); [|lia].
  by rewrite (course_body format self _ _ _ _
                (format_raises format self _ (Agent.mkState [] 0 w []) e Hf)).
Qed.

Lemma built_prompt self question (w : World.t Ext) :
  build_prompt (Agent.tools self) question = Some (Ok (World.prompt w)) →
  World.prompt w
  = fill (tool_description (Agent.tools self)) (tool_names (Agent.tools self))
         question (lit "{previous_responses}").
Proof. rewrite build_prompt_fill. by intros [= <-]. Qed.

(** X8.  With tool names and descriptions free of braces, a budget of at
    least one pass and the module-level prompt built for the question: a
    question whose first brace is a closing brace that is not doubled
    makes the first pass raise ValueError when the prompt is formatted.
    The model is never called, nothing is recorded, the counter is one. *)
Theorem stray_closing_brace_ends_the_run self a b w fuel :
  python_format format →
  plain_tools (Agent.tools self) →
  brace_free a → head b ≠ Some Fmt.rbrace →
  build_prompt (Agent.tools self) (a ++ [Fmt.rbrace] ++ b)
  = Some (Ok (World.prompt w)) →
  (0 < Agent.max_loops self)%Z →
  Agent.run format (S fuel) self (a ++ [Fmt.rbrace] ++ b) w
  = Some (Raise (ValueError (lit "Single '}' encountered in format string")),
          Agent.mkState [] 1 w []).
Proof.
  intros Hfmt Htools Ha Hb Hprompt Hbudget.
  apply first_pass_raises; [|done]. apply Hfmt.
  rewrite (built_prompt _ _ _ Hprompt).
  apply format_stray_closing_brace;
    [by apply brace_free_tool_description|by apply brace_free_tool_names|done..].
Qed.

(** X9.  With tool names and descriptions free of braces, a budget of at
    least one pass and the module-level prompt built for the question: a
    question whose first brace opens a field with an identifier as its
    name, other than the name of the previous responses, makes the first
    pass raise KeyError with that name.  The model is never called,
    nothing is recorded, the counter is one. *)
Theorem unknown_field_ends_the_run self a c n b w fuel :
  python_format format →
  plain_tools (Agent.tools self) →
  brace_free a →
  Fmt.is_letter c = true →
  Forall (λ c, Fmt.is_letter c || Fmt.is_digit c = true) n →
  c :: n ≠ lit "previous_responses" →
  build_prompt (Agent.tools self) (a ++ [Fmt.lbrace] ++ (c :: n) ++ [Fmt.rbrace] ++ b)
  = Some (Ok (World.prompt w)) →
  (0 < Agent.max_loops self)%Z →
  Agent.run format (S fuel) self
            (a ++ [Fmt.lbrace] ++ (c :: n) ++ [Fmt.rbrace] ++ b) w
  = Some (Raise (KeyError (c :: n)), Agent.mkState [] 1 w []).
Proof.
  intros Hfmt Htools Ha Hc Hn Hne Hprompt Hbudget.
  apply first_pass_raises; [|done]. apply Hfmt.
  rewrite (built_prompt _ _ _ Hprompt).
  apply format_unknown_field;
    [by apply brace_free_tool_description|by apply brace_free_tool_names|done..].
Qed.

(** X10.  When the module-level prompt is the one built for the question,
    with names, descriptions and question free of braces, and neither the
    model nor the tools change it, a run that returns is its completed
    passes, one for each record of the transcript, followed by an ending.
    The model call of each completed pass is sent the template filled with
    the tool descriptions, the tool names, the question and the records of
    the passes before it, joined by newlines.  The ending is empty when the
    budget is spent; otherwise it is one call of the model, sent the
    template filled with all the records, followed by at most one failed
    call of a tool. *)
Theorem what_the_model_is_sent fuel self question w res st :
  python_format format →
  plain_tools (Agent.tools self) → brace_free question →
  build_prompt (Agent.tools self) question = Some (Ok (World.prompt w)) →
  (∀ w' p stop,
     World.prompt (LLM.generate (Agent.llm self) w' p stop).2 = World.prompt w') →
  Forall (λ tool, ∀ w' i, World.prompt (Tool.run tool w' i).2 = World.prompt w')
         (Agent.tools self) →
  Agent.run format fuel self question w = Some (res, st) →
  let render v :=
    fill (tool_description (Agent.tools self)) (tool_names (Agent.tools self))
         question v in
  ∃ passes ending,
    Agent.trace st = (passes ≫= pass_events) ++ ending
    ∧ Agent.previous_responses st = pass_record <$> passes
    ∧ (∀ i x, passes !! i = Some x →
         pass_prompt x = render (Py.join [nl] (pass_record <$> take i passes)))
    ∧ match res with
      | Ok None => ending = []
      | _ =>
          ∃ r rest,
            ending = Generate (render (Py.join [nl] (pass_record <$> passes)))
                              (Agent.stop_pattern self) r :: rest
            ∧ (rest = []
               ∨ ∃ tool tool_input e, rest = [Invoke tool tool_input (Raise e)])
      end.
Proof.
  intros Hfmt Htools Hq Hprompt Hllm Hkeep Hrun render.
  apply built_prompt in Hprompt.
  assert (∀ (s : Agent.State Ext) v, World.prompt (Agent.world s) = World.prompt w →
                 format (World.prompt (Agent.world s)) v = Ok (render v)) as Hrender.
  { intros s v ->. apply Hfmt. rewrite Hprompt. by apply format_fill. }
  unfold Agent.run in Hrun.
  apply (loop_invariant format
           (λ s, World.prompt (Agent.world s) = World.prompt w
              ∧ ∃ passes,
                  Agent.trace s = passes ≫= pass_events
                  ∧ Agent.previous_responses s = pass_record <$> passes
                  ∧ ∀ i x, passes !! i = Some x →
                      pass_prompt x
                      = render (Py.join [nl] (pass_record <$> take i passes))))
    in Hrun.
  - destruct Hrun as (st1 & (Hw & passes & Htr & Hprev & Hall) & Hend).
    exists passes.
    destruct Hend as [(-> & ->)|(r & Hc & Hres)].
    + exists []. rewrite app_nil_r. split_and!; [done|done|done|done].
    + pose proof (Hrender st1 (Py.join [nl] (Agent.previous_responses st1)) Hw)
        as Hp. rewrite Hprev in Hp.
      destruct Hc; try done;
        cbn [Agent.trace Agent.previous_responses]; rewrite Htr;
        match goal with H : format _ _ = _ |- _ =>
          rewrite Hprev, Hp in H end; simplify_eq.
      all: eexists; split_and!; [done|done|done|].
      all: eexists _, _; split; [reflexivity|]; eauto 6.
  - split; [done|]. exists []. split_and!; [done..|]. by intros i x.
  - intros s s' (Hw & passes & Htr & Hprev & Hall) _ Hc.
    destruct (completed_pass _ _ _ _ Hc)
      as (x & w1 & t & _ & Hf & Htr' & Hprev' & _ & Hg & Hin & Hr).
    split.
    + rewrite Forall_forall in Hkeep.
      pose proof (Hkeep t Hin w1 (pass_input x)) as H1. rewrite Hr in H1.
      pose proof (Hllm (Agent.world s) (pass_prompt x) (Agent.stop_pattern self)) as H2.
      rewrite Hg in H2. simpl in H1, H2. congruence.
    + exists (passes ++ [x]). split_and!.
      * rewrite Htr', Htr, bind_app. f_equal.
      * by rewrite Hprev', Hprev, fmap_app.
      * rewrite (Hrender s _ Hw), Hprev in Hf. injection Hf as Hf.
        intros i y Hi. apply lookup_app_Some in Hi as [Hi|[Hlen Hi]].
        -- rewrite take_app_le by (apply lookup_lt_Some in Hi; lia). by apply Hall.
        -- destruct (i - length passes) as [|k] eqn:Hk; [|by destruct k].
           injection Hi as <-. assert (i = length passes) as -> by lia.
           by rewrite take_app_length.
Qed.
End notebook.

(** ** The further properties at concrete inputs *)

(** Two tools of one name: the later one is found. *)
Example later_tool_shadows_earlier :
  let first := Tool.mk (lit "Search") (lit "old") (λ (w : World.t nat) _, (Ok (lit "1"), w)) in
  let second := Tool.mk (lit "Search") (lit "new") (λ (w : World.t nat) _, (Ok (lit "2"), w)) in
  Tool.description
    <$> (Agent.tool_by_names (Demo.agent (Demo.says []) [first; second] 3)
         !! lit "Search")
  = Some (lit "new").
Proof. vm_compute. reflexivity. Qed.

Lemma final_answer_round_trip_witness :
  Agent._get_tool_and_input
    (lit "Final Answer: no, wait." ++ [nl] ++ FINAL_ANSWER_TOKEN ++ lit " "
     ++ lit "Ann Lee and Bo Chen")
  = Ok (lit "Final Answer", lit "Ann Lee and Bo Chen").
Proof.
  apply (final_answer_round_trip (lit "Final Answer: no, wait." ++ [nl])).
  - apply contains_false. vm_compute. reflexivity.
  - vm_compute. reflexivity.
Defined.

Lemma final_answer_is_clean_witness :
  let generated := lit "Thought: done" ++ [nl] ++ lit "Final Answer:  42 " ++ [nl] in
  ¬ occurs FINAL_ANSWER_TOKEN (lit "42")
  ∧ Py.strip (lit "42") = lit "42"
  ∧ Agent._get_tool_and_input (FINAL_ANSWER_TOKEN ++ lit " " ++ lit "42")
    = Ok (lit "Final Answer", lit "42").
Proof.
  intros generated.
  apply (final_answer_is_clean generated).
  - apply contains_iff. vm_compute. reflexivity.
  - vm_compute. reflexivity.
Defined.

Lemma action_round_trip_witness :
  Agent._get_tool_and_input
    (lit "I need the nominees." ++ [nl] ++ lit "Action: " ++ lit "Proxy Statement"
     ++ [nl] ++ lit "Action Input: " ++ lit "director nominees")
  = Ok (lit "Proxy Statement", lit "director nominees").
Proof.
  apply (action_round_trip (lit "I need the nominees." ++ [nl])).
  - apply contains_false. vm_compute. reflexivity.
  - apply contains_false. vm_compute. reflexivity.
  - apply contains_false. vm_compute. reflexivity.
  - vm_compute. reflexivity.
  - vm_compute. discriminate.
  - vm_compute. discriminate.
  - vm_compute. reflexivity.
  - vm_compute. reflexivity.
Defined.

(** Two actions in one output: the first names the tool, the second
    ends up in its input. *)
Lemma first_action_rule_witness :
  let generated :=
    lit "Action: A" ++ [nl] ++ lit "Action Input: x" ++ [nl]
    ++ lit "Action: B" ++ [nl] ++ lit "Action Input: y" in
  Agent._get_tool_and_input generated
  = Ok (lit "A", lit "x" ++ [nl] ++ lit "Action: B" ++ [nl] ++ lit "Action Input: y")
  ∧ ∃ pre mid rest,
      first_occurrence (lit "Action: ") generated pre
                       (mid ++ lit "Action Input:" ++ rest)
      ∧ first_occurrence (lit "Action Input:")
                         (mid ++ lit "Action Input:" ++ rest) mid rest.
Proof.
  intros generated.
  assert (Agent._get_tool_and_input generated
          = Ok (lit "A", lit "x" ++ [nl] ++ lit "Action: B" ++ [nl]
                         ++ lit "Action Input: y")) as Hparse
    by (vm_compute; reflexivity).
  split; [exact Hparse|].
  assert (¬ occurs FINAL_ANSWER_TOKEN generated) as Hno
    by (apply contains_false; vm_compute; reflexivity).
  destruct (first_action_rule generated _ _ Hno Hparse)
    as (pre & ob & g1 & cb & nls & ws & g2 & H1 & H2 & _).
  exists pre, (ob ++ g1 ++ cb ++ nls), (ws ++ g2). split; [|exact H2].
  by rewrite <- !app_assoc.
Defined.

Lemma prompt_two_stages_witness :
  ∃ prompt,
    build_prompt Notebook.tools Notebook.question = Some (Ok prompt)
    ∧ Fmt.format prompt {[lit "previous_responses" := lit "{not a field}"]}
      = Some (Ok (fill (tool_description Notebook.tools)
                       (tool_names Notebook.tools) Notebook.question
                       (lit "{not a field}"))).
Proof.
  apply prompt_two_stages.
  - repeat constructor; apply (bool_decide_unpack _); by vm_compute.
  - apply (bool_decide_unpack _). by vm_compute.
Defined.

Lemma python_format_stand_in : python_format Fmt.format_previous_responses.
Proof. intros tpl v r H. unfold Fmt.format_previous_responses. by rewrite H. Qed.

Lemma notebook_tools_plain : plain_tools Notebook.tools.
Proof. repeat constructor; apply (bool_decide_unpack _); by vm_compute. Qed.

Lemma run_is_a_dialogue_witness :
  ∃ st passes p output,
    Agent.run Fmt.format_previous_responses 21
              (Notebook.agent Demo.scripted Notebook.question)
              Notebook.question (Notebook.world Notebook.question)
    = Some (Ok (Some (lit "Ann Lee and Bo Chen")), st)
    ∧ Agent.trace st
      = (passes ≫= pass_events) ++ [Generate p Demo.stop (Ok output)]
    ∧ Agent.previous_responses st = pass_record <$> passes
    ∧ Agent.num_loops st = Z.of_nat (length passes + 1).
Proof.
  destruct (Agent.run Fmt.format_previous_responses 21
              (Notebook.agent Demo.scripted Notebook.question)
              Notebook.question (Notebook.world Notebook.question))
    as [[res st]|] eqn:Hrun; [|by vm_compute in Hrun].
  assert (res = Ok (Some (lit "Ann Lee and Bo Chen"))) as ->.
  { pose proof Hrun as Hc. vm_compute in Hc. by injection Hc as <- _. }
  destruct (run_is_a_dialogue _ _ _ _ _ _ _ Hrun)
    as (passes & ending & Htr & Hprev & _ & Hn & p & output & -> & _).
  exists st, passes, p, output. auto.
Defined.

Lemma what_the_model_is_sent_witness :
  ∃ st passes r rest,
    Agent.run Fmt.format_previous_responses 21
              (Notebook.agent Demo.scripted Notebook.question)
              Notebook.question (Notebook.world Notebook.question)
    = Some (Ok (Some (lit "Ann Lee and Bo Chen")), st)
    ∧ Agent.previous_responses st = pass_record <$> passes
    ∧ Agent.trace st
      = (passes ≫= pass_events)
        ++ Generate (fill (tool_description Notebook.tools)
                          (tool_names Notebook.tools) Notebook.question
                          (Py.join [nl] (pass_record <$> passes)))
                    Demo.stop r :: rest.
Proof.
  destruct (Agent.run Fmt.format_previous_responses 21
              (Notebook.agent Demo.scripted Notebook.question)
              Notebook.question (Notebook.world Notebook.question))
    as [[res st]|] eqn:Hrun; [|by vm_compute in Hrun].
  assert (res = Ok (Some (lit "Ann Lee and Bo Chen"))) as ->.
  { pose proof Hrun as Hc. vm_compute in Hc. by injection Hc as <- _. }
  destruct (what_the_model_is_sent Fmt.format_previous_responses 21
              (Notebook.agent Demo.scripted Notebook.question)
              Notebook.question (Notebook.world Notebook.question)
              (Ok (Some (lit "Ann Lee and Bo Chen"))) st)
    as (passes & ending & Htr & Hprev & _ & r & rest & -> & _).
  - apply python_format_stand_in.
  - apply notebook_tools_plain.
  - apply (bool_decide_unpack _). by vm_compute.
  - apply build_prompt_fill.
  - reflexivity.
  - by repeat constructor.
  - exact Hrun.
  - by exists st, passes, r, rest.
Defined.

Lemma stray_closing_brace_ends_the_run_witness :
  let question := lit "What is 2" ++ [Fmt.rbrace] ++ lit "?" in
  Agent.run Fmt.format_previous_responses 1
            (Notebook.agent Demo.scripted question) question (Notebook.world question)
  = Some (Raise (ValueError (lit "Single '}' encountered in format string")),
          Agent.mkState [] 1 (Notebook.world question) []).
Proof.
  apply (stray_closing_brace_ends_the_run Fmt.format_previous_responses
           (Notebook.agent Demo.scripted _) (lit "What is 2") (lit "?")
           (Notebook.world _) 0).
  - apply python_format_stand_in.
  - apply notebook_tools_plain.
  - apply (bool_decide_unpack _). by vm_compute.
  - vm_compute. discriminate.
  - apply build_prompt_fill.
  - reflexivity.
Defined.

Lemma unknown_field_ends_the_run_witness :
  let question := lit "Who is " ++ [Fmt.lbrace] ++ lit "name" ++ [Fmt.rbrace] ++ lit "?" in
  Agent.run Fmt.format_previous_responses 1
            (Notebook.agent Demo.scripted question) question (Notebook.world question)
  = Some (Raise (KeyError (lit "name")),
          Agent.mkState [] 1 (Notebook.world question) []).
Proof.
  apply (unknown_field_ends_the_run Fmt.format_previous_responses
           (Notebook.agent Demo.scripted _) (lit "Who is ") 110%N (lit "ame") (lit "?")
           (Notebook.world _) 0).
  - apply python_format_stand_in.
  - apply notebook_tools_plain.
  - apply (bool_decide_unpack _). by vm_compute.
  - reflexivity.
  - repeat constructor.
  - vm_compute. discriminate.
  - apply build_prompt_fill.
  - reflexivity.
Defined.
